(** * Dependency-aware batch scheduler of [claude_parallel_executor.py]

    A shallow embedding of [ParallelTaskExecutor]: the dependency resolver
    ([_resolve_dependencies]), the per-task runner ([execute_single_task]),
    the two batch drivers ([_execute_with_progress],
    [_execute_without_progress]) and [execute_batch], together with the
    properties of the scheduler that its specification states.

    Conventions of the embedding:
    - Python [str] is [string], holding the UTF-8 encoding of the text
      ([len] and slicing count code points: [str_len], [str_prefix]);
      [int] is [Z], [List] is [list], a [set] of ids is a [gset string] and
      a [Dict[str, TaskResult]] is a [gmap string TaskResult];
    - clock readings ([time.time()], a Python float) are integers counted in
      an arbitrary fixed unit; no property below computes with them;
    - the [while] loop of the resolver is a [Fixpoint] on a number of
      allowed iterations: [None] means that the loop is still running
      after that many iterations;
    - the SDK's [query] is a variable of a section, a function of the
      prompt and the options it is called with: one run of it is the list
      of messages it yields, how it ends (exhausted, or raising
      [asyncio.TimeoutError] or another [Exception]) and how long it
      takes; signals that are not an [Exception] (cancellation, keyboard
      interrupt) are outside the embedding;
    - the coroutines of a batch are embedded twice: as the list of their
      results in the drivers, where only the number of permits decides
      whether [gather] completes, and as the step relation [batch_step]
      over the permit pool, whose paths are the interleavings of the
      event loop. *)

From Stdlib Require Import ZArith String Ascii.
From stdpp Require Import base relations list sorting gmap strings.

Set Warnings "-clear-no-such-hyp".

Local Open Scope Z_scope.
Local Open Scope string_scope.
Local Open Scope list_scope.

(** ** Data model *)

(** [@dataclass ParallelTask], after [__post_init__]: [dependencies] is a
    list (a [None] was replaced by the empty list) and [id] is a string. *)
Record ParallelTask := {
  id : string;
  prompt : string;
  description : string;
  priority : Z;
  max_turns : Z;
  timeout : option Z;
  dependencies : list string;
  tools_allowed : option (list string);
  tools_blocked : option (list string)
}.

(** [@dataclass TaskResult]. *)
Record TaskResult := {
  task_id : string;
  success : bool;
  result : string;
  error : option string;
  execution_time : Z;
  tokens_used : option Z
}.

#[global] Instance ParallelTask_eq_dec : EqDecision ParallelTask.
Proof. solve_decision. Defined.

#[global] Instance TaskResult_eq_dec : EqDecision TaskResult.
Proof. solve_decision. Defined.

(** What [self.console.print] is called with, by call site. *)
Inductive console_line :=
  | WarnCircular (remaining : nat)
  | BatchHeader (batch_idx total : nat).

(** ** [list.sort(key=lambda x: x.priority, reverse=True)]

    Python's sort is stable, also with [reverse=True]: elements with equal
    keys keep their relative order.  It is embedded as a stable insertion
    sort; [sort_by_priority_perm], [sort_by_priority_sorted] and
    [sort_by_priority_stable] below determine its output uniquely. *)
Fixpoint insert_by_priority (t : ParallelTask) (l : list ParallelTask)
  : list ParallelTask :=
  match l with
  | [] => [t]
  | y :: l' =>
      if decide (priority y <= priority t) then t :: y :: l'
      else y :: insert_by_priority t l'
  end.

Definition sort_by_priority (l : list ParallelTask) : list ParallelTask :=
  foldr insert_by_priority [] l.

(** ** [_resolve_dependencies] *)

(** [all(dep in completed for dep in task.dependencies)] *)
Definition deps_completed (completed : gset string) (task : ParallelTask) : Prop :=
  Forall (λ dep, dep ∈ completed) (dependencies task).

(** The [for task in tasks] loop that fills [ready_tasks]. *)
Definition ready_tasks_of (tasks : list ParallelTask) (completed : gset string)
  : list ParallelTask :=
  filter (λ task, (id task ∉ completed) ∧ deps_completed completed task) tasks.

(** [[task for task in tasks if task.id not in completed]] *)
Definition remaining_of (tasks : list ParallelTask) (completed : gset string)
  : list ParallelTask :=
  filter (λ task, (id task ∉ completed)) tasks.

(** The local variables of the loop, and what it printed. *)
Record resolver_state := {
  completed : gset string;
  batches : list (list ParallelTask);
  printed : list console_line
}.

Definition resolver_init : resolver_state :=
  {| completed := ∅; batches := []; printed := [] |}.

(** The batch chosen by one iteration, before sorting, with what the
    iteration prints: the ready tasks, or all the remaining ones after the
    warning when no task is ready. *)
Definition choose_ready (tasks : list ParallelTask) (placed : gset string)
  : list ParallelTask * list console_line :=
  match ready_tasks_of tasks placed with
  | [] => let remaining := remaining_of tasks placed in
          (remaining, [WarnCircular (length remaining)])
  | ready => (ready, [])
  end.

(** One iteration of the [while] loop. *)
Definition resolver_step (tasks : list ParallelTask) (st : resolver_state)
  : resolver_state :=
  let '(ready, out) := choose_ready tasks (completed st) in
  let ready := sort_by_priority ready in
  {| completed := completed st ∪ list_to_set (id <$> ready);
     batches := batches st ++ [ready];
     printed := printed st ++ out |}.

(** [while len(completed) < len(tasks): ...], run for at most [fuel]
    iterations. *)
Fixpoint resolver_loop (fuel : nat) (tasks : list ParallelTask)
    (st : resolver_state) : option resolver_state :=
  if decide (size (completed st) < length tasks)%nat then
    match fuel with
    | O => None
    | S fuel' => resolver_loop fuel' tasks (resolver_step tasks st)
    end
  else Some st.

(** The local variables of the loop once it has run for [fuel] iterations,
    or has ended before that. *)
Fixpoint resolver_trace (fuel : nat) (tasks : list ParallelTask)
    (st : resolver_state) : resolver_state :=
  if decide (size (completed st) < length tasks)%nat then
    match fuel with
    | O => st
    | S fuel' => resolver_trace fuel' tasks (resolver_step tasks st)
    end
  else st.

(** The method: the batches it returns and the lines it printed. *)
Definition _resolve_dependencies (fuel : nat) (tasks : list ParallelTask)
  : option (list (list ParallelTask) * list console_line) :=
  st ← resolver_loop fuel tasks resolver_init;
  Some (batches st, printed st).

(** ** The executor capability: the SDK's [query]

    A message is inspected by attribute: one with an iterable [content]
    contributes the [text] of each block that has one, otherwise one with a
    [result] contributes [str(message.result)], any other contributes
    nothing. *)
Inductive content_block :=
  | TextBlock (text : string)
  | OtherBlock.

Inductive message :=
  | ContentMessage (content : list content_block)
  | ResultMessage (result_text : string)
  | OtherMessage.

(** How the [async for] over [query(...)] ends: the generator is exhausted,
    or it raises [asyncio.TimeoutError], or another [Exception] whose
    [str(e)] is [text]. *)
Inductive query_end :=
  | Exhausted
  | RaisedTimeoutError
  | RaisedException (text : string).

Record query_run := {
  yielded : list message;
  ending : query_end;
  elapsed : Z
}.

(** [ClaudeCodeOptions] as [execute_single_task] builds it; [None] for a
    tool list means that the attribute was not assigned. *)
Record ClaudeCodeOptions := {
  opt_max_turns : Z;
  permission_mode : string;
  allowed_tools : option (list string);
  blocked_tools : option (list string)
}.

(** [if task.tools_allowed: options.allowed_tools = task.tools_allowed]:
    assigned only when the list is given and non-empty. *)
Definition assigned_tools (tools : option (list string)) : option (list string) :=
  match tools with
  | Some (tool :: rest) => Some (tool :: rest)
  | _ => None
  end.

Definition options_of (task : ParallelTask) : ClaudeCodeOptions :=
  {| opt_max_turns := max_turns task;
     permission_mode := "bypassPermissions";
     allowed_tools := assigned_tools (tools_allowed task);
     blocked_tools := assigned_tools (tools_blocked task) |}.

(** The descriptions [progress.update] is called with. *)
Inductive progress_text :=
  | Queued (d : string)
  | Executing (d : string)
  | Completed (d : string)
  | TimedOut (d : string)
  | Failed (d : string).

(** [for block in message.content: if hasattr(block, 'text'): ...append] *)
Definition append_blocks (result_parts : list string) (content : list content_block)
  : list string :=
  fold_left (λ parts block,
               match block with
               | TextBlock text => parts ++ [text]
               | OtherBlock => parts
               end) content result_parts.

(** The body of the [async for message in query(...)] loop. *)
Definition append_message (result_parts : list string) (m : message) : list string :=
  match m with
  | ContentMessage content => append_blocks result_parts content
  | ResultMessage r => result_parts ++ [r]
  | OtherMessage => result_parts
  end.

Definition newline : string := String "010"%char EmptyString.

(** [sep.join(parts)] *)
Fixpoint join (sep : string) (parts : list string) : string :=
  match parts with
  | [] => ""
  | [part] => part
  | part :: rest => (part ++ sep ++ join sep rest)%string
  end.

Section Executor.

(** The capability, called with [prompt=task.prompt, options=options]. *)
Variable query : string → ClaudeCodeOptions → query_run.

(** [execute_single_task]: the result, and the descriptions it hands to
    [progress.update] in order. *)
Definition execute_single_task (task : ParallelTask)
  : TaskResult * list progress_text :=
  let options := options_of task in
  let run := query (prompt task) options in
  let result_parts := fold_left append_message (yielded run) [] in
  match ending run with
  | Exhausted =>
      ({| task_id := id task; success := true;
          result := join newline result_parts; error := None;
          execution_time := elapsed run; tokens_used := None |},
       [Executing (description task); Completed (description task)])
  | RaisedTimeoutError =>
      ({| task_id := id task; success := false; result := "";
          error := Some "Task timeout";
          execution_time := elapsed run; tokens_used := None |},
       [Executing (description task); TimedOut (description task)])
  | RaisedException text =>
      ({| task_id := id task; success := false; result := "";
          error := Some text;
          execution_time := elapsed run; tokens_used := None |},
       [Executing (description task); Failed (description task)])
  end.

(** The executor object.  [running_tasks] is created empty by [__init__]
    and no method reads or writes it: it is left out. *)
Record ParallelTaskExecutor := {
  max_parallel : Z;
  console : list console_line;
  completed_tasks : gmap string TaskResult
}.

(** [__init__]: [self.max_parallel = min(max_parallel, 10)]. *)
Definition __init__ (requested : Z) : ParallelTaskExecutor :=
  {| max_parallel := Z.min requested 10; console := []; completed_tasks := ∅ |}.

Definition console_print (line : console_line) (self : ParallelTaskExecutor)
  : ParallelTaskExecutor :=
  {| max_parallel := max_parallel self;
     console := console self ++ [line];
     completed_tasks := completed_tasks self |}.

Definition record_completed (key : string) (r : TaskResult)
    (self : ParallelTaskExecutor) : ParallelTaskExecutor :=
  {| max_parallel := max_parallel self;
     console := console self;
     completed_tasks := <[key := r]> (completed_tasks self) |}.

(** The [rich] progress display: one row per [add_task], whose [TaskID] is
    its index.  [update] is only ever called with an id that [add_task]
    returned. *)
Record progress_row := {
  row_description : progress_text;
  row_completed : bool
}.

Definition add_task (d : progress_text) (rows : list progress_row)
  : nat * list progress_row :=
  (length rows, rows ++ [{| row_description := d; row_completed := false |}]).

Definition update_description (d : progress_text) (i : nat)
    (rows : list progress_row) : list progress_row :=
  alter (λ row, {| row_description := d; row_completed := row_completed row |})
        i rows.

Definition update_completed (i : nat) (rows : list progress_row)
  : list progress_row :=
  alter (λ row, {| row_description := row_description row; row_completed := true |})
        i rows.

(** An element of the list [asyncio.gather(..., return_exceptions=True)]
    returns: the value of the coroutine, or the exception it raised. *)
Inductive gathered :=
  | GatherValue (r : TaskResult)
  | GatherException (text : string).

(** [if isinstance(result, Exception): result = TaskResult(...)] *)
Definition to_result (task : ParallelTask) (g : gathered) : TaskResult :=
  match g with
  | GatherValue r => r
  | GatherException text =>
      {| task_id := id task; success := false; result := "";
         error := Some text; execution_time := 0; tokens_used := None |}
  end.

(** How a driver stops before its last batch: [asyncio.Semaphore(value)]
    raises [ValueError] for a negative value; with the value 0 every
    coroutine of a non-empty batch waits for a permit that is never
    released, and [gather] does not complete (see [batch_step] below). *)
Inductive interruption :=
  | RaisedValueError
  | Blocked.

Definition semaphore_gate (value : Z) (batch : list ParallelTask)
  : option interruption :=
  if decide (value < 0) then Some RaisedValueError
  else if decide (value = 0 ∧ batch ≠ []) then Some Blocked
  else None.

(** What a driver has built so far: the executor object, the progress
    display, the local [all_results], and (ghost) the calls made to the
    capability, in the order in which [gather] received the coroutines. *)
Record driver_state := {
  self : ParallelTaskExecutor;
  progress : list progress_row;
  all_results : gmap string TaskResult;
  calls : list (string * ClaudeCodeOptions)
}.

(** [run_with_semaphore(task)]: [execute_single_task] catches every
    [Exception], so the coroutine returns a value. *)
Definition run_with_semaphore (task : ParallelTask)
  : gathered * list progress_text :=
  let '(r, updates) := execute_single_task task in (GatherValue r, updates).

(** The [add_task] loop that fills [progress_tasks]. *)
Definition queue_batch (batch : list ParallelTask) (rows : list progress_row)
  : gmap string nat * list progress_row :=
  fold_left (λ acc task,
               let '(pid, rows') := add_task (Queued (description task)) acc.2 in
               (<[id task := pid]> acc.1, rows'))
            batch (∅, rows).

(** The progress updates of the coroutines of a batch, each on the row
    [progress_tasks[task.id]]. *)
Definition apply_updates (progress_tasks : gmap string nat)
    (batch : list ParallelTask) (rows : list progress_row) : list progress_row :=
  fold_left (λ rows task,
               match progress_tasks !! id task with
               | Some pid =>
                   fold_left (λ rows d, update_description d pid rows)
                             (run_with_semaphore task).2 rows
               | None => rows
               end) batch rows.

(** The [for task, result in zip(batch, batch_results)] loop of
    [_execute_with_progress]. *)
Definition process_with_progress (progress_tasks : gmap string nat)
    (pairs : list (ParallelTask * gathered)) (st : driver_state) : driver_state :=
  fold_left (λ st pair,
               let r := to_result pair.1 pair.2 in
               {| self := record_completed (id pair.1) r (self st);
                  progress := match progress_tasks !! id pair.1 with
                              | Some pid => update_completed pid (progress st)
                              | None => progress st
                              end;
                  all_results := <[id pair.1 := r]> (all_results st);
                  calls := calls st |}) pairs st.

(** The same loop in [_execute_without_progress]. *)
Definition process_without_progress
    (pairs : list (ParallelTask * gathered)) (st : driver_state) : driver_state :=
  fold_left (λ st pair,
               let r := to_result pair.1 pair.2 in
               {| self := record_completed (id pair.1) r (self st);
                  progress := progress st;
                  all_results := <[id pair.1 := r]> (all_results st);
                  calls := calls st |}) pairs st.

Definition calls_of (batch : list ParallelTask) : list (string * ClaudeCodeOptions) :=
  (λ task, (prompt task, options_of task)) <$> batch.

(** The body of [for batch_idx, batch in enumerate(task_batches)] in
    [_execute_with_progress]. *)
Definition batch_with_progress (total batch_idx : nat)
    (batch : list ParallelTask) (st : driver_state)
  : option interruption * driver_state :=
  let self1 := console_print (BatchHeader (batch_idx + 1) total) (self st) in
  let '(progress_tasks, rows) := queue_batch batch (progress st) in
  let st1 := {| self := self1; progress := rows;
                all_results := all_results st; calls := calls st |} in
  match semaphore_gate (max_parallel self1) batch with
  | Some stop => (Some stop, st1)
  | None =>
      let batch_results := (λ task, (run_with_semaphore task).1) <$> batch in
      let st2 := {| self := self1;
                    progress := apply_updates progress_tasks batch rows;
                    all_results := all_results st;
                    calls := calls st ++ calls_of batch |} in
      (None, process_with_progress progress_tasks (zip batch batch_results) st2)
  end.

(** The body of [for batch in task_batches] in
    [_execute_without_progress]; the [DummyProgress] ignores the updates. *)
Definition batch_without_progress (batch : list ParallelTask) (st : driver_state)
  : option interruption * driver_state :=
  match semaphore_gate (max_parallel (self st)) batch with
  | Some stop => (Some stop, st)
  | None =>
      let batch_results := (λ task, (run_with_semaphore task).1) <$> batch in
      let st2 := {| self := self st; progress := progress st;
                    all_results := all_results st;
                    calls := calls st ++ calls_of batch |} in
      (None, process_without_progress (zip batch batch_results) st2)
  end.

(** The batches one after the other; a batch starts when the previous one
    has been processed. *)
Fixpoint run_batches
    (body : nat → list ParallelTask → driver_state → option interruption * driver_state)
    (batch_idx : nat) (task_batches : list (list ParallelTask)) (st : driver_state)
  : option interruption * driver_state :=
  match task_batches with
  | [] => (None, st)
  | batch :: rest =>
      match body batch_idx batch st with
      | (None, st') => run_batches body (S batch_idx) rest st'
      | stopped => stopped
      end
  end.

Definition driver_init (self : ParallelTaskExecutor) (rows : list progress_row)
  : driver_state :=
  {| self := self; progress := rows; all_results := ∅; calls := [] |}.

Definition _execute_with_progress (self : ParallelTaskExecutor)
    (task_batches : list (list ParallelTask)) (rows : list progress_row)
  : option interruption * driver_state :=
  run_batches (batch_with_progress (length task_batches)) 0 task_batches
              (driver_init self rows).

Definition _execute_without_progress (self : ParallelTaskExecutor)
    (task_batches : list (list ParallelTask))
  : option interruption * driver_state :=
  run_batches (λ _, batch_without_progress) 0 task_batches (driver_init self []).

(** How a call of [execute_batch] turns out. *)
Inductive completion :=
  | Returned (results : gmap string TaskResult)
  | Interrupted (stop : interruption)
  | Unfinished.

Definition completion_of (r : option interruption * driver_state) : completion :=
  match r.1 with
  | None => Returned (all_results r.2)
  | Some stop => Interrupted stop
  end.

(** [execute_batch]: [Unfinished] when [_resolve_dependencies] is still
    looping after [fuel] iterations; the console then holds what these
    iterations have printed, and nothing after that call has happened. *)
Definition execute_batch (fuel : nat) (self : ParallelTaskExecutor)
    (tasks : list ParallelTask) (show_progress : bool)
  : completion * driver_state :=
  match _resolve_dependencies fuel tasks with
  | None =>
      let self1 := {| max_parallel := max_parallel self;
                      console := console self
                                 ++ printed (resolver_trace fuel tasks
                                               resolver_init);
                      completed_tasks := completed_tasks self |} in
      (Unfinished, driver_init self1 [])
  | Some (sorted_tasks, out) =>
      let self1 := {| max_parallel := max_parallel self;
                      console := console self ++ out;
                      completed_tasks := completed_tasks self |} in
      let r := if show_progress
               then _execute_with_progress self1 sorted_tasks []
               else _execute_without_progress self1 sorted_tasks in
      (completion_of r, r.2)
  end.

(** The result a task gets from its own run of the capability. *)
Definition own_result (task : ParallelTask) : TaskResult :=
  (execute_single_task task).1.

(** The assignments [all_results[task.id] = result] of a batch, in order. *)
Definition assign_results (batch : list ParallelTask)
    (m : gmap string TaskResult) : gmap string TaskResult :=
  fold_left (λ m task, <[id task := own_result task]> m) batch m.

(** What a loop body does to the results, the calls and the permit count,
    according to the gate of the semaphore. *)
Definition body_spec
    (body : nat → list ParallelTask → driver_state
            → option interruption * driver_state) : Prop :=
  ∀ idx batch st,
    max_parallel (self (body idx batch st).2) = max_parallel (self st)
    ∧ match semaphore_gate (max_parallel (self st)) batch with
      | Some stop =>
          (body idx batch st).1 = Some stop
          ∧ all_results (body idx batch st).2 = all_results st
          ∧ calls (body idx batch st).2 = calls st
      | None =>
          (body idx batch st).1 = None
          ∧ all_results (body idx batch st).2
            = assign_results batch (all_results st)
          ∧ calls (body idx batch st).2 = calls st ++ calls_of batch
      end.

End Executor.

(** ** The permit pool of one batch

    [async with semaphore: return await self.execute_single_task(...)]:
    each coroutine of the batch waits for a permit, is in flight while it
    holds one, and gives it back on every exit of the [async with].  The
    event loop interleaves the coroutines; every interleaving is a path of
    [batch_step]. *)
Inductive phase := Waiting | InFlight | Finished.

#[global] Instance phase_eq_dec : EqDecision phase.
Proof. solve_decision. Defined.

Record batch_state := {
  permits : Z;
  phases : list phase
}.

(** [asyncio.Semaphore(value)]: [ValueError] when [value < 0]. *)
Definition semaphore_new (value : Z) (batch : list ParallelTask)
  : option batch_state :=
  if decide (value < 0) then None
  else Some {| permits := value; phases := (λ _, Waiting) <$> batch |}.

Inductive batch_step : batch_state → batch_state → Prop :=
  | step_acquire i s :
      phases s !! i = Some Waiting →
      0 < permits s →
      batch_step s {| permits := permits s - 1;
                      phases := <[i := InFlight]> (phases s) |}
  | step_release i s :
      phases s !! i = Some InFlight →
      batch_step s {| permits := permits s + 1;
                      phases := <[i := Finished]> (phases s) |}.

(** The number of calls of the capability that are running. *)
Definition in_flight (s : batch_state) : nat :=
  length (filter (λ p, p = InFlight) (phases s)).

(** ** Vocabulary of the properties *)

(** The order of a batch: [a] may stand before [b]. *)
Definition by_priority_desc (a b : ParallelTask) : Prop := priority b <= priority a.

(** The ids placed so far are those of the batches, and the batches hold
    tasks of the input. *)
Record resolver_inv (tasks : list ParallelTask) (st : resolver_state) : Prop := {
  inv_completed : completed st = list_to_set (id <$> concat (batches st));
  inv_tasks : ∀ t, t ∈ concat (batches st) → t ∈ tasks
}.

(** Each task is placed at most once. *)
Definition placed_once (st : resolver_state) : Prop :=
  NoDup (id <$> concat (batches st)).

(** [depends_on tasks a b]: a task of the input with id [a] lists [b] among
    its dependencies. *)
Definition depends_on (tasks : list ParallelTask) (a b : string) : Prop :=
  ∃ t, t ∈ tasks ∧ id t = a ∧ b ∈ dependencies t.

(** No id reaches itself along dependency edges. *)
Definition acyclic (tasks : list ParallelTask) : Prop :=
  ∀ a, ¬ tc (depends_on tasks) a a.

(** The tasks of a batch have all their dependencies in earlier batches. *)
Definition deps_before (bs : list (list ParallelTask)) : Prop :=
  ∀ i b t d, bs !! i = Some b → t ∈ b → d ∈ dependencies t →
             d ∈ id <$> concat (take i bs).

(** Nothing was printed: no iteration had to force a batch. *)
Definition never_forced (st : resolver_state) : Prop := printed st = [].

(** The permits that are out are those of the calls in flight. *)
Definition permits_inv (value : Z) (s : batch_state) : Prop :=
  (Z.of_nat (in_flight s) + permits s = value ∧ 0 ≤ permits s)%Z.

(** The texts a message contributes, in order. *)
Definition message_chunks (m : message) : list string :=
  match m with
  | ContentMessage content =>
      content ≫= λ block, match block with
                           | TextBlock text => [text]
                           | OtherBlock => []
                           end
  | ResultMessage r => [r]
  | OtherMessage => []
  end.

(** The chunks of a run, in the order received. *)
Definition chunks (messages : list message) : list string :=
  messages ≫= message_chunks.

(** The task with its time bound replaced. *)
Definition with_timeout (bound : option Z) (task : ParallelTask) : ParallelTask :=
  {| id := id task; prompt := prompt task; description := description task;
     priority := priority task; max_turns := max_turns task;
     timeout := bound; dependencies := dependencies task;
     tools_allowed := tools_allowed task; tools_blocked := tools_blocked task |}.

(** ** Example inputs *)

(** A task with the defaults of the dataclass for the fields that the
    scheduler forwards. *)
Definition simple_task (i : string) (p : Z) (deps : list string) : ParallelTask :=
  {| id := i; prompt := i; description := i; priority := p; max_turns := 5;
     timeout := None; dependencies := deps; tools_allowed := None;
     tools_blocked := None |}.

(** The linear chain a -> b -> c, and a rank that decreases along its
    dependency edges. *)
Definition chain_a : ParallelTask := simple_task "a" 1 [].

Definition chain_b : ParallelTask := simple_task "b" 3 ["a"].

Definition chain_c : ParallelTask := simple_task "c" 2 ["b"].

Definition rank_abc (i : string) : nat :=
  if decide (i = "a") then 0 else if decide (i = "b") then 1 else 2.

(** Two distinct tasks with the same id. *)
Definition twin_x1 : ParallelTask := simple_task "x" 1 [].

Definition twin_x2 : ParallelTask := simple_task "x" 2 [].

(** The cycle a <-> b, and a second task of id ["a"]. *)
Definition cycle_a : ParallelTask := simple_task "a" 1 ["b"].

Definition cycle_b : ParallelTask := simple_task "b" 3 ["a"].

Definition cycle_a' : ParallelTask := simple_task "a" 2 ["b"].

(** A capability for the examples: it echoes the prompt, and fails on the
    prompt ["t3"]. *)
Definition echo_query (p : string) (o : ClaudeCodeOptions) : query_run :=
  if decide (p = "t3")
  then {| yielded := []; ending := RaisedException "boom"; elapsed := 2 |}
  else {| yielded := [ContentMessage [TextBlock p]]; ending := Exhausted;
          elapsed := 1 |}.

(** Five independent tasks, and one that depends on the third. *)
Definition five_tasks : list ParallelTask :=
  [simple_task "t1" 1 []; simple_task "t2" 1 []; simple_task "t3" 1 [];
   simple_task "t4" 1 []; simple_task "t5" 1 []].


(** A run that yields the two chunks ["a"] and ["b"]. *)
Definition two_chunk_query (p : string) (o : ClaudeCodeOptions) : query_run :=
  {| yielded := [ContentMessage [TextBlock "a"]; ContentMessage [TextBlock "b"]];
     ending := Exhausted; elapsed := 1 |}.

(** A task bounded to 1 unit of time, and a capability that completes
    after 5 units. *)
Definition bounded_task : ParallelTask :=
  with_timeout (Some 1) (simple_task "slow" 1 []).

Definition slow_query (p : string) (o : ClaudeCodeOptions) : query_run :=
  {| yielded := [ResultMessage "late"]; ending := Exhausted; elapsed := 5 |}.

(** ** Vocabulary of the further properties *)

(** The ids of the tasks of some batches. *)
Definition placed_ids (bs : list (list ParallelTask)) : gset string :=
  list_to_set (id <$> concat bs).

(** Every batch is what was ready when it was emitted: the tasks not yet
    placed whose dependencies were all placed by the batches before it, in
    priority order, and there was at least one. *)
Definition layered (tasks : list ParallelTask) (bs : list (list ParallelTask))
  : Prop :=
  ∀ i b, bs !! i = Some b →
         b = sort_by_priority (ready_tasks_of tasks (placed_ids (take i bs)))
         ∧ b ≠ [].

(** The index of the first batch that holds a task of id [x] (0 when there
    is none). *)
Definition batch_index (bs : list (list ParallelTask)) (x : string) : nat :=
  default 0%nat (fst <$> list_find (λ b, x ∈ id <$> b) bs).

(** Every dependency names a task of the list. *)
Definition dependencies_exist (tasks : list ParallelTask) : Prop :=
  ∀ t d, t ∈ tasks → d ∈ dependencies t → d ∈ id <$> tasks.

(** The batches that the gate of the semaphore lets run, one after the
    other, and the interruption that stops the driver after them, if any. *)
Fixpoint executed_batches (value : Z) (task_batches : list (list ParallelTask))
  : list (list ParallelTask) :=
  match task_batches with
  | [] => []
  | batch :: rest =>
      match semaphore_gate value batch with
      | Some _ => []
      | None => batch :: executed_batches value rest
      end
  end.

Fixpoint first_interruption (value : Z) (task_batches : list (list ParallelTask))
  : option interruption :=
  match task_batches with
  | [] => None
  | batch :: rest =>
      match semaphore_gate value batch with
      | Some stop => Some stop
      | None => first_interruption value rest
      end
  end.

(** What a loop body of a driver does to the results, the calls and the
    executor object, according to the gate of the semaphore. *)
Definition body_effect (query : string → ClaudeCodeOptions → query_run)
    (body : nat → list ParallelTask → driver_state
            → option interruption * driver_state) : Prop :=
  ∀ idx batch st,
    max_parallel (self (body idx batch st).2) = max_parallel (self st)
    ∧ match semaphore_gate (max_parallel (self st)) batch with
      | Some stop =>
          (body idx batch st).1 = Some stop
          ∧ all_results (body idx batch st).2 = all_results st
          ∧ calls (body idx batch st).2 = calls st
          ∧ completed_tasks (self (body idx batch st).2)
            = completed_tasks (self st)
      | None =>
          (body idx batch st).1 = None
          ∧ all_results (body idx batch st).2
            = assign_results query batch (all_results st)
          ∧ calls (body idx batch st).2 = calls st ++ calls_of batch
          ∧ completed_tasks (self (body idx batch st).2)
            = assign_results query batch (completed_tasks (self st))
      end.

(** The coroutines of a batch that wait for a permit, and the steps that
    are left to a batch: an acquisition and a release for each waiting
    coroutine, a release for each one in flight. *)
Definition waiting (s : batch_state) : nat :=
  length (filter (λ p, p = Waiting) (phases s)).

Definition steps_left (s : batch_state) : nat :=
  (2 * waiting s + in_flight s)%nat.

(** The state of the resolver's loop that has emitted the batches [bs] and
    printed [out]. *)
Definition state_of (bs : list (list ParallelTask)) (out : list console_line)
  : resolver_state :=
  {| completed := placed_ids bs; batches := bs; printed := out |}.

(** ** The task factories *)

(** [l[:n]]: the first [n] elements, all but the last [-n] when [n] is
    negative. *)
Definition slice_to {A} (n : Z) (l : list A) : list A :=
  if decide (0 ≤ n)%Z then take (Z.to_nat n) l
  else take (Z.to_nat (Z.of_nat (length l) + n)) l.

(** [create_codebase_exploration_tasks]; [base_path] is the text that the
    f-strings insert for the path.  The fields that the constructor is not
    given keep the defaults of the dataclass. *)
Definition create_codebase_exploration_tasks (base_path : string) (num_tasks : Z)
  : list ParallelTask :=
  let tasks :=
    [ {| id := "arch_analysis";
         prompt := ("Analyze the overall architecture of the codebase at "
                    ++ base_path
                    ++ ". Focus on project structure, main modules, and design patterns.")%string;
         description := "Architecture Analysis";
         priority := 3; max_turns := 3; timeout := None; dependencies := [];
         tools_allowed := Some ["Read"; "Glob"; "Grep"; "LS"];
         tools_blocked := None |};
      {| id := "deps_analysis";
         prompt := ("Analyze dependencies, imports, and external libraries used in "
                    ++ base_path ++ ". Create a dependency map.")%string;
         description := "Dependencies Analysis";
         priority := 2; max_turns := 3; timeout := None; dependencies := [];
         tools_allowed := Some ["Read"; "Glob"; "Grep"];
         tools_blocked := None |};
      {| id := "quality_analysis";
         prompt := ("Analyze code quality, patterns, and potential issues in "
                    ++ base_path
                    ++ ". Look for code smells, best practices, and refactoring opportunities.")%string;
         description := "Code Quality Analysis";
         priority := 2; max_turns := 4; timeout := None; dependencies := [];
         tools_allowed := Some ["Read"; "Glob"; "Grep"];
         tools_blocked := None |};
      {| id := "docs_test_analysis";
         prompt := ("Analyze documentation coverage and testing strategies in "
                    ++ base_path
                    ++ ". Identify gaps and improvement opportunities.")%string;
         description := "Documentation & Testing Analysis";
         priority := 1; max_turns := 3; timeout := None; dependencies := [];
         tools_allowed := Some ["Read"; "Glob"; "Grep"];
         tools_blocked := None |} ] in
  slice_to num_tasks tasks.

(** [create_feature_development_tasks]; [base_id] is
    [str(uuid.uuid4())[:8]], drawn anew by each call. *)
Definition create_feature_development_tasks (base_id : string)
    (feature_description : string) : list ParallelTask :=
  [ {| id := (base_id ++ "_design")%string;
       prompt := ("Design the architecture and API for this feature: "
                  ++ feature_description
                  ++ ". Create detailed specifications.")%string;
       description := "Feature Design";
       priority := 3; max_turns := 5; timeout := None; dependencies := [];
       tools_allowed := Some ["Read"; "Write"; "Glob"; "Grep"];
       tools_blocked := None |};
    {| id := (base_id ++ "_implementation")%string;
       prompt := ("Implement the core functionality for: "
                  ++ feature_description
                  ++ ". Follow the design specifications.")%string;
       description := "Implementation";
       priority := 2; max_turns := 8; timeout := None;
       dependencies := [(base_id ++ "_design")%string];
       tools_allowed := Some ["Read"; "Write"; "Edit"; "Glob"; "Grep"];
       tools_blocked := None |};
    {| id := (base_id ++ "_tests")%string;
       prompt := ("Create comprehensive tests for the feature: "
                  ++ feature_description)%string;
       description := "Test Creation";
       priority := 2; max_turns := 5; timeout := None;
       dependencies := [(base_id ++ "_implementation")%string];
       tools_allowed := Some ["Read"; "Write"; "Edit"; "Glob"; "Grep"];
       tools_blocked := None |};
    {| id := (base_id ++ "_docs")%string;
       prompt := ("Create documentation for the feature: "
                  ++ feature_description)%string;
       description := "Documentation";
       priority := 1; max_turns := 3; timeout := None;
       dependencies := [(base_id ++ "_implementation")%string];
       tools_allowed := Some ["Read"; "Write"; "Edit"];
       tools_blocked := None |} ].

(** ** [display_results_summary] *)

(** The status cell of a row: the success mark or the failure mark. *)
Inductive status_cell := SuccessMark | FailedMark.

#[global] Instance status_cell_eq_dec : EqDecision status_cell.
Proof. solve_decision. Defined.

(** A Python [str] is a sequence of code points; it is represented here by
    its UTF-8 encoding, one [ascii] per byte.  A byte [10xxxxxx] (128 to
    191) continues a code point, every other byte starts one. *)
Definition continuation_byte (c : ascii) : bool :=
  (Nat.leb 128 (nat_of_ascii c)) && (Nat.ltb (nat_of_ascii c) 192).

(** [len(s)]: the number of code points. *)
Fixpoint str_len (s : string) : nat :=
  match s with
  | EmptyString => 0%nat
  | String c s' => if continuation_byte c then str_len s' else S (str_len s')
  end.








#[global] Instance query_end_eq_dec : EqDecision query_end.
Proof. solve_decision. Defined.

(** ** The progress display at the end of a run *)

(** The description of the last [progress.update] of
    [execute_single_task]: one per way the run of the capability ends. *)
Definition outcome_text (query : string → ClaudeCodeOptions → query_run)
    (task : ParallelTask) : progress_text :=
  match ending (query (prompt task) (options_of task)) with
  | Exhausted => Completed (description task)
  | RaisedTimeoutError => TimedOut (description task)
  | RaisedException _ => Failed (description task)
  end.

(** The row of a task that has been run and processed. *)
Definition final_row (query : string → ClaudeCodeOptions → query_run)
    (task : ParallelTask) : progress_row :=
  {| row_description := outcome_text query task; row_completed := true |}.

(** * Properties *)

(** ** The sort *)

Lemma insert_by_priority_perm t l : insert_by_priority t l ≡ₚ t :: l.
Proof.
  induction l as [|y l IH]; simpl; [done|].
  case_decide; [done|].
  rewrite IH. apply Permutation_swap.
Qed.

Lemma sort_by_priority_perm l : sort_by_priority l ≡ₚ l.
Proof.
  induction l as [|t l IH]; simpl; [done|].
  rewrite insert_by_priority_perm. by f_equiv.
Qed.

Lemma insert_by_priority_sorted t l :
  StronglySorted by_priority_desc l →
  StronglySorted by_priority_desc (insert_by_priority t l).
Proof.
  induction 1 as [|y l Hl IH Hy]; simpl.
  - repeat constructor.
  - case_decide as Hle.
    + constructor; [by constructor|].
      constructor; [done|].
      eapply Forall_impl; [exact Hy|].
      unfold by_priority_desc. intros; lia.
    + constructor; [done|].
      rewrite insert_by_priority_perm.
      constructor; [|done]. unfold by_priority_desc. lia.
Qed.

Lemma sort_by_priority_sorted l :
  StronglySorted by_priority_desc (sort_by_priority l).
Proof.
  induction l as [|t l IH]; simpl; [constructor|].
  by apply insert_by_priority_sorted.
Qed.

Lemma insert_by_priority_stable p t l :
  filter (λ x, priority x = p) (insert_by_priority t l)
  = filter (λ x, priority x = p) (t :: l).
Proof.
  induction l as [|y l IH]; simpl; [done|].
  case_decide as Hle; [done|].
  rewrite filter_cons, IH, !filter_cons.
  repeat case_decide; try done; lia.
Qed.

Lemma sort_by_priority_stable p l :
  filter (λ x, priority x = p) (sort_by_priority l)
  = filter (λ x, priority x = p) l.
Proof.
  induction l as [|t l IH]; simpl; [done|].
  rewrite insert_by_priority_stable, !filter_cons, IH. done.
Qed.

Lemma sort_by_priority_elem t l : t ∈ sort_by_priority l ↔ t ∈ l.
Proof. by rewrite sort_by_priority_perm. Qed.

Lemma sort_by_priority_length l : length (sort_by_priority l) = length l.
Proof. by rewrite sort_by_priority_perm. Qed.

Lemma sort_by_priority_ids l : id <$> sort_by_priority l ≡ₚ id <$> l.
Proof. by rewrite sort_by_priority_perm. Qed.

Lemma sort_by_priority_singleton t : sort_by_priority [t] = [t].
Proof. done. Qed.

(** ** The resolver: what every iteration keeps *)

Lemma ready_tasks_remaining tasks placed t :
  t ∈ ready_tasks_of tasks placed → t ∈ remaining_of tasks placed.
Proof.
  unfold ready_tasks_of, remaining_of.
  rewrite !list_elem_of_filter. naive_solver.
Qed.

Lemma ready_tasks_sublist tasks placed :
  ready_tasks_of tasks placed `sublist_of` remaining_of tasks placed.
Proof.
  unfold ready_tasks_of, remaining_of.
  induction tasks as [|t tasks IH]; [done|].
  rewrite !filter_cons.
  repeat case_decide; try naive_solver.
  - by apply sublist_skip.
  - by apply sublist_cons.
Qed.

Lemma choose_ready_sublist tasks placed :
  (choose_ready tasks placed).1 `sublist_of` remaining_of tasks placed.
Proof.
  unfold choose_ready.
  pose proof (ready_tasks_sublist tasks placed) as Hsub.
  destruct (ready_tasks_of tasks placed); simpl; done.
Qed.

Lemma remaining_sublist tasks placed : remaining_of tasks placed `sublist_of` tasks.
Proof. apply sublist_filter. Qed.

Lemma remaining_fresh tasks placed t : t ∈ remaining_of tasks placed → id t ∉ placed.
Proof. unfold remaining_of. rewrite list_elem_of_filter. naive_solver. Qed.

Lemma resolver_inv_init tasks : resolver_inv tasks resolver_init.
Proof. split; simpl; [done|]. intros t Ht. by apply elem_of_nil in Ht. Qed.

Lemma resolver_step_batches tasks st :
  batches (resolver_step tasks st)
  = batches st ++ [sort_by_priority (choose_ready tasks (completed st)).1].
Proof. unfold resolver_step. by destruct (choose_ready tasks (completed st)). Qed.

Lemma resolver_step_completed tasks st :
  completed (resolver_step tasks st)
  = completed st ∪ list_to_set (id <$> (choose_ready tasks (completed st)).1).
Proof.
  unfold resolver_step. destruct (choose_ready tasks (completed st)) as [r o]; simpl.
  apply set_eq. intros x. rewrite !elem_of_union, !elem_of_list_to_set.
  by rewrite sort_by_priority_ids.
Qed.

Lemma resolver_step_printed tasks st :
  printed (resolver_step tasks st)
  = printed st ++ (choose_ready tasks (completed st)).2.
Proof. unfold resolver_step. by destruct (choose_ready tasks (completed st)). Qed.

Lemma resolver_step_inv tasks st :
  resolver_inv tasks st → resolver_inv tasks (resolver_step tasks st).
Proof.
  intros [Hc Ht]. split.
  - rewrite resolver_step_completed, resolver_step_batches, Hc.
    rewrite concat_app, fmap_app, list_to_set_app_L. simpl.
    rewrite app_nil_r. apply set_eq. intros x.
    rewrite !elem_of_union, !elem_of_list_to_set.
    by rewrite sort_by_priority_ids.
  - intros t. rewrite resolver_step_batches, concat_app, elem_of_app. simpl.
    rewrite app_nil_r, sort_by_priority_elem.
    intros [Hin|Hin]; [by apply Ht|].
    eapply elem_of_sublist; [exact Hin|].
    etrans; [apply choose_ready_sublist|apply remaining_sublist].
Qed.

Lemma resolver_inv_subseteq tasks st :
  resolver_inv tasks st → completed st ⊆ list_to_set (id <$> tasks).
Proof.
  intros [Hc Ht] x. rewrite Hc, !elem_of_list_to_set, !list_elem_of_fmap.
  intros (t & -> & Hin). eauto.
Qed.

(** ** The resolver on lists with a repeated id *)

Lemma size_ids_lt (l : list string) :
  ¬ NoDup l → (size (list_to_set l : gset string) < length l)%nat.
Proof.
  induction l as [|x l IH]; intros Hdup.
  - destruct Hdup. constructor.
  - simpl. destruct (decide (x ∈ l)) as [Hin|Hin].
    + assert ({[x]} ∪ list_to_set l = (list_to_set l : gset string)) as ->.
      { apply set_eq. intros y. rewrite elem_of_union, elem_of_singleton,
          elem_of_list_to_set. naive_solver. }
      pose proof (subseteq_size (list_to_set l : gset string) (list_to_set l)
                    (reflexivity _)) as _.
      destruct (decide (NoDup l)) as [Hnd|Hnd].
      * rewrite size_list_to_set by done. lia.
      * specialize (IH Hnd). lia.
    + assert (¬ NoDup l) as Hnd.
      { intros Hnd. apply Hdup. by constructor. }
      specialize (IH Hnd).
      rewrite size_union by (apply disjoint_singleton_l;
                              by rewrite elem_of_list_to_set).
      rewrite size_singleton. lia.
Qed.

(** With a repeated id the loop condition stays true: [completed] holds
    at most as many ids as there are distinct ones. *)
Lemma resolver_loop_duplicate_id tasks :
  ¬ NoDup (id <$> tasks) →
  ∀ fuel st, resolver_inv tasks st → resolver_loop fuel tasks st = None.
Proof.
  intros Hdup fuel. induction fuel as [|fuel IH]; intros st Hinv; simpl.
  - destruct (decide (size (completed st) < length tasks)%nat) as [|Hge]; [done|].
    exfalso. apply Hge.
    pose proof (subseteq_size _ _ (resolver_inv_subseteq _ _ Hinv)).
    pose proof (size_ids_lt _ Hdup) as Hlt.
    rewrite length_fmap in Hlt. lia.
  - destruct (decide (size (completed st) < length tasks)%nat) as [|Hge].
    + apply IH. by apply resolver_step_inv.
    + exfalso. apply Hge.
      pose proof (subseteq_size _ _ (resolver_inv_subseteq _ _ Hinv)).
      pose proof (size_ids_lt _ Hdup) as Hlt.
      rewrite length_fmap in Hlt. lia.
Qed.

Lemma resolve_duplicate_id tasks fuel :
  ¬ NoDup (id <$> tasks) → _resolve_dependencies fuel tasks = None.
Proof.
  intros Hdup. unfold _resolve_dependencies.
  rewrite (resolver_loop_duplicate_id tasks Hdup fuel resolver_init
             (resolver_inv_init tasks)).
  done.
Qed.

(** ** The resolver on lists with pairwise distinct ids *)

Lemma NoDup_ids_inj (l : list ParallelTask) t t' :
  NoDup (id <$> l) → t ∈ l → t' ∈ l → id t = id t' → t = t'.
Proof.
  induction l as [|x l IH]; simpl; intros Hnd Ht Ht' Heq.
  - by apply elem_of_nil in Ht.
  - apply NoDup_cons in Hnd as [Hx Hnd].
    apply elem_of_cons in Ht as [->|Ht]; apply elem_of_cons in Ht' as [->|Ht'].
    + done.
    + destruct Hx. rewrite Heq. by apply list_elem_of_fmap_2.
    + destruct Hx. rewrite <- Heq. by apply list_elem_of_fmap_2.
    + by apply IH.
Qed.

Section UniqueIds.

Variable tasks : list ParallelTask.
Hypothesis unique_ids : NoDup (id <$> tasks).

Lemma remaining_ids_NoDup placed : NoDup (id <$> remaining_of tasks placed).
Proof.
  eapply sublist_NoDup; [exact unique_ids|].
  apply fmap_sublist, remaining_sublist.
Qed.

Lemma choose_ready_NoDup placed : NoDup (id <$> (choose_ready tasks placed).1).
Proof.
  eapply sublist_NoDup; [apply (remaining_ids_NoDup placed)|].
  apply fmap_sublist, choose_ready_sublist.
Qed.

Lemma choose_ready_fresh placed t :
  t ∈ (choose_ready tasks placed).1 → id t ∉ placed.
Proof.
  intros Hin. apply (remaining_fresh tasks).
  eapply elem_of_sublist; [exact Hin|apply choose_ready_sublist].
Qed.

Lemma resolver_step_placed_once st :
  resolver_inv tasks st → placed_once st → placed_once (resolver_step tasks st).
Proof.
  intros [Hc Ht] Hnd. unfold placed_once.
  rewrite resolver_step_batches, concat_app, fmap_app. simpl.
  rewrite app_nil_r, sort_by_priority_ids.
  apply NoDup_app. split; [done|]. split; [|apply choose_ready_NoDup].
  intros x Hx Hx'. apply list_elem_of_fmap in Hx' as (t & -> & Hin).
  apply choose_ready_fresh in Hin. apply Hin.
  by rewrite Hc, elem_of_list_to_set.
Qed.

Lemma size_completed st :
  resolver_inv tasks st → placed_once st →
  size (completed st) = length (concat (batches st)).
Proof.
  intros [Hc _] Hnd. rewrite Hc, size_list_to_set by done.
  by rewrite length_fmap.
Qed.

(** While the loop condition holds some task is not placed. *)
Lemma remaining_nonempty st :
  resolver_inv tasks st →
  (size (completed st) < length tasks)%nat →
  remaining_of tasks (completed st) ≠ [].
Proof.
  intros Hinv Hlt Hnil.
  assert (list_to_set (id <$> tasks) ⊆ completed st) as Hsub.
  { intros x. rewrite elem_of_list_to_set, list_elem_of_fmap.
    intros (t & -> & Hin).
    destruct (decide (id t ∈ completed st)) as [|Hnot]; [done|].
    exfalso. eapply (filter_nil_not_elem_of _ _ t Hnil); [exact Hnot|done]. }
  apply subseteq_size in Hsub.
  rewrite size_list_to_set, length_fmap in Hsub by done. lia.
Qed.

(** The cycle-breaking step: the batch of an iteration is never empty. *)
Lemma choose_ready_nonempty st :
  resolver_inv tasks st →
  (size (completed st) < length tasks)%nat →
  (choose_ready tasks (completed st)).1 ≠ [].
Proof.
  intros Hinv Hlt. unfold choose_ready.
  destruct (ready_tasks_of tasks (completed st)) eqn:Hready; simpl; [|done].
  by apply remaining_nonempty.
Qed.

(** Every iteration places at least one task that was not placed. *)
Lemma resolver_step_progress st :
  resolver_inv tasks st → placed_once st →
  (size (completed st) < length tasks)%nat →
  (size (completed st) < size (completed (resolver_step tasks st)))%nat.
Proof.
  intros Hinv Hnd Hlt.
  rewrite (size_completed (resolver_step tasks st))
    by auto using resolver_step_inv, resolver_step_placed_once.
  rewrite (size_completed st) by done.
  rewrite resolver_step_batches, concat_app, length_app. simpl.
  rewrite app_nil_r, sort_by_priority_length.
  pose proof (choose_ready_nonempty st Hinv Hlt) as Hne.
  destruct (choose_ready tasks (completed st)).1; [done|]. simpl. lia.
Qed.

(** The loop ends within the iterations that are left to reach
    [len(tasks)], with every id placed. *)
Lemma resolver_loop_terminates fuel : ∀ st,
  resolver_inv tasks st → placed_once st →
  (length tasks ≤ size (completed st) + fuel)%nat →
  ∃ st', resolver_loop fuel tasks st = Some st'
         ∧ resolver_inv tasks st' ∧ placed_once st'
         ∧ completed st' = list_to_set (id <$> tasks).
Proof.
  induction fuel as [|fuel IH]; intros st Hinv Hnd Hfuel; simpl.
  - destruct (decide (size (completed st) < length tasks)%nat); [lia|].
    exists st. split_and!; try done.
    apply set_subseteq_size_eq; [by apply resolver_inv_subseteq|].
    rewrite size_list_to_set, length_fmap by done. lia.
  - destruct (decide (size (completed st) < length tasks)%nat) as [Hlt|Hge].
    + apply IH; auto using resolver_step_inv, resolver_step_placed_once.
      pose proof (resolver_step_progress st Hinv Hnd Hlt). lia.
    + exists st. split_and!; try done.
      apply set_subseteq_size_eq; [by apply resolver_inv_subseteq|].
      rewrite size_list_to_set, length_fmap by done. lia.
Qed.

Lemma placed_once_init : placed_once resolver_init.
Proof. unfold placed_once. simpl. constructor. Qed.

(** [len(tasks)] iterations are enough, and the batches hold every task
    exactly once. *)
Lemma resolve_terminates :
  ∃ bs out, _resolve_dependencies (length tasks) tasks = Some (bs, out)
            ∧ concat bs ≡ₚ tasks.
Proof.
  destruct (resolver_loop_terminates (length tasks) resolver_init)
    as (st & Hloop & [Hc Ht] & Hnd & Hall);
    [apply resolver_inv_init|apply placed_once_init|simpl; lia|].
  exists (batches st), (printed st). unfold _resolve_dependencies.
  rewrite Hloop. split; [done|].
  apply NoDup_Permutation.
  - by eapply NoDup_fmap_1.
  - by eapply NoDup_fmap_1.
  - intros t. split; [apply Ht|]. intros Hin.
    assert (id t ∈ completed st) as Hid.
    { rewrite Hall, elem_of_list_to_set. by apply list_elem_of_fmap_2. }
    rewrite Hc, elem_of_list_to_set in Hid.
    apply list_elem_of_fmap in Hid as (t' & Heq & Hin').
    assert (t = t') as ->; [|done].
    apply (NoDup_ids_inj tasks); [done|done|by apply Ht|done].
Qed.

End UniqueIds.

(** ** Dependency order *)

(** In a finite set in which every element has a successor, following
    successors comes back to an element already seen. *)
Lemma successors_cycle {A} `{EqDecision A} (R : relation A) (U : list A) :
  (∀ a, a ∈ U → ∃ b, b ∈ U ∧ R a b) →
  ∀ n seen a,
    NoDup seen → (∀ s, s ∈ seen → s ∈ U ∧ tc R s a) → a ∈ U →
    (length U ≤ length seen + n)%nat →
    ∃ c, tc R c c.
Proof.
  intros Hsucc n. induction n as [|n IH]; intros seen a Hnd Hseen Ha Hlen.
  - destruct (decide (a ∈ seen)) as [Hin|Hnin].
    + exists a. by apply Hseen.
    + exfalso.
      assert (a :: seen ⊆+ U) as Hsub.
      { apply NoDup_submseteq; [by constructor|].
        intros x [->|Hx]%elem_of_cons; [done|]. by apply Hseen. }
      apply submseteq_length in Hsub. simpl in Hsub. lia.
  - destruct (decide (a ∈ seen)) as [Hin|Hnin].
    + exists a. by apply Hseen.
    + destruct (Hsucc a Ha) as (b & Hb & Hab).
      apply (IH (a :: seen) b); [by constructor| |done|simpl; lia].
      intros s [->|Hs]%elem_of_cons.
      * split; [done|]. by apply tc_once.
      * destruct (Hseen s Hs) as [HsU Hsa]. split; [done|].
        eapply tc_r; eauto.
Qed.

Section Acyclic.

Variable tasks : list ParallelTask.
Hypothesis unique_ids : NoDup (id <$> tasks).
Hypothesis deps_exist :
  ∀ t d, t ∈ tasks → d ∈ dependencies t → d ∈ id <$> tasks.
Hypothesis no_cycle : acyclic tasks.

(** While a task is unplaced, one of the unplaced tasks is ready. *)
Lemma ready_tasks_nonempty placed :
  remaining_of tasks placed ≠ [] → ready_tasks_of tasks placed ≠ [].
Proof.
  intros Hrem Hready.
  set (U := id <$> remaining_of tasks placed).
  assert (∀ a, a ∈ U → ∃ b, b ∈ U ∧ depends_on tasks a b) as Hsucc.
  { intros a (t & -> & Ht)%list_elem_of_fmap.
    pose proof Ht as Ht'. unfold remaining_of in Ht'.
    apply list_elem_of_filter in Ht' as [Hfresh Hin].
    assert (¬ deps_completed placed t) as Hnot.
    { intros Hdeps.
      eapply (filter_nil_not_elem_of _ _ t Hready); [|exact Hin]. done. }
    unfold deps_completed in Hnot.
    apply not_Forall_Exists in Hnot; [|intros x; apply _].
    apply Exists_exists in Hnot as (d & Hd & Hdn).
    exists d. split.
    - pose proof (deps_exist t d Hin Hd) as Hex.
      apply list_elem_of_fmap in Hex as (t' & -> & Hin').
      apply list_elem_of_fmap_2. unfold remaining_of.
      apply list_elem_of_filter. done.
    - exists t. done. }
  destruct (remaining_of tasks placed) as [|t0 rest] eqn:Hr; [done|].
  destruct (successors_cycle (depends_on tasks) U Hsucc (length U) [] (id t0))
    as [c Hc].
  - constructor.
  - intros s Hs. by apply elem_of_nil in Hs.
  - unfold U. simpl. left.
  - simpl. lia.
  - by apply (no_cycle c).
Qed.

Lemma choose_ready_not_forced st :
  resolver_inv tasks st →
  (size (completed st) < length tasks)%nat →
  choose_ready tasks (completed st) = (ready_tasks_of tasks (completed st), []).
Proof.
  intros Hinv Hlt. unfold choose_ready.
  pose proof (ready_tasks_nonempty (completed st)
                (remaining_nonempty tasks unique_ids st Hinv Hlt)) as Hne.
  by destruct (ready_tasks_of tasks (completed st)).
Qed.

Lemma resolver_step_deps_before st :
  resolver_inv tasks st →
  (size (completed st) < length tasks)%nat →
  deps_before (batches st) → deps_before (batches (resolver_step tasks st)).
Proof.
  intros Hinv Hlt Hord i b t d Hi Ht Hd.
  rewrite resolver_step_batches in *.
  rewrite choose_ready_not_forced in * by done. simpl in *.
  destruct (decide (i < length (batches st))%nat) as [Hlti|Hge].
  - rewrite lookup_app_l in Hi by done.
    rewrite take_app_le by lia. eapply Hord; eauto.
  - rewrite lookup_app_r in Hi by lia.
    apply list_lookup_singleton_Some in Hi as [Hi0 <-].
    rewrite take_app_length' by lia.
    rewrite sort_by_priority_elem in Ht.
    unfold ready_tasks_of in Ht.
    apply list_elem_of_filter in Ht as [[_ Hdeps] _].
    unfold deps_completed in Hdeps. rewrite Forall_forall in Hdeps.
    specialize (Hdeps d Hd).
    destruct Hinv as [Hc _]. by rewrite Hc, elem_of_list_to_set in Hdeps.
Qed.

Lemma resolver_step_never_forced st :
  resolver_inv tasks st →
  (size (completed st) < length tasks)%nat →
  never_forced st → never_forced (resolver_step tasks st).
Proof.
  intros Hinv Hlt Hnf. unfold never_forced.
  rewrite resolver_step_printed, choose_ready_not_forced by done.
  simpl. by rewrite app_nil_r.
Qed.

Lemma resolver_loop_deps_before fuel : ∀ st st',
  resolver_inv tasks st → deps_before (batches st) → never_forced st →
  resolver_loop fuel tasks st = Some st' →
  deps_before (batches st') ∧ never_forced st'.
Proof.
  induction fuel as [|fuel IH]; intros st st' Hinv Hord Hnf; simpl.
  - destruct (decide (size (completed st) < length tasks)%nat); [done|].
    by intros [= <-].
  - destruct (decide (size (completed st) < length tasks)%nat) as [Hlt|].
    + apply IH; auto using resolver_step_inv, resolver_step_deps_before,
        resolver_step_never_forced.
    + by intros [= <-].
Qed.

End Acyclic.

Lemma resolver_loop_continue fuel tasks st :
  (size (completed st) < length tasks)%nat →
  resolver_loop (S fuel) tasks st = resolver_loop fuel tasks (resolver_step tasks st).
Proof. intros Hlt. simpl. by destruct (decide _). Qed.

Lemma resolver_loop_exit fuel tasks st :
  ¬ (size (completed st) < length tasks)%nat →
  resolver_loop fuel tasks st = Some st.
Proof. intros Hge. destruct fuel; simpl; by destruct (decide _). Qed.

(** An iteration in which exactly one task is ready. *)
Lemma ready_tasks_single tasks placed x :
  NoDup tasks → x ∈ tasks →
  id x ∉ placed → deps_completed placed x →
  (∀ t, t ∈ tasks → t ≠ x → id t ∈ placed ∨ ¬ deps_completed placed t) →
  ready_tasks_of tasks placed = [x].
Proof.
  intros Hnd Hx Hfresh Hdeps Hothers.
  apply Permutation_singleton_r, NoDup_Permutation.
  - eapply sublist_NoDup; [exact Hnd|apply sublist_filter].
  - apply NoDup_singleton.
  - intros t. unfold ready_tasks_of.
    rewrite list_elem_of_filter, list_elem_of_singleton. split.
    + intros [[Hf Hd] Hin]. destruct (decide (t = x)) as [|Hne]; [done|].
      destruct (Hothers t Hin Hne); done.
    + intros ->. done.
Qed.

Lemma resolver_step_single tasks st x :
  ready_tasks_of tasks (completed st) = [x] →
  resolver_step tasks st
  = {| completed := completed st ∪ {[id x]};
       batches := batches st ++ [[x]];
       printed := printed st |}.
Proof.
  intros Hready. unfold resolver_step, choose_ready. rewrite Hready. simpl.
  f_equal.
  - by rewrite (right_id_L ∅ (∪)).
  - by rewrite app_nil_r.
Qed.

(** The linear chain: whatever the order of the three tasks in the input,
    the batches are [[a]], [[b]], [[c]]. *)
Lemma resolve_chain tasks a b c :
  tasks ≡ₚ [a; b; c] →
  id a ≠ id b → id b ≠ id c → id a ≠ id c →
  dependencies a = [] → dependencies b = [id a] → dependencies c = [id b] →
  _resolve_dependencies 3 tasks = Some ([[a]; [b]; [c]], []).
Proof.
  intros Hperm Hab Hbc Hac Ha Hb Hc.
  assert (length tasks = 3%nat) as Hlen by (by rewrite Hperm).
  assert (NoDup tasks) as Hnd.
  { rewrite Hperm. repeat constructor; set_solver. }
  assert (∀ t, t ∈ tasks ↔ t = a ∨ t = b ∨ t = c) as Hin.
  { intros t. rewrite Hperm. set_solver. }
  assert (a ≠ b ∧ b ≠ c ∧ a ≠ c) as (Hab' & Hbc' & Hac') by naive_solver.
  assert (ready_tasks_of tasks ∅ = [a]) as Hready1.
  { apply ready_tasks_single;
      [done|apply Hin; auto|set_solver
      |unfold deps_completed; rewrite Ha; constructor|].
    intros t [->| [->| ->]]%Hin Hne; [done| |]; right;
      unfold deps_completed; [rewrite Hb|rewrite Hc];
      rewrite Forall_singleton; set_solver. }
  assert (ready_tasks_of tasks (∅ ∪ {[id a]}) = [b]) as Hready2.
  { apply ready_tasks_single;
      [done|apply Hin; auto|set_solver
      |unfold deps_completed; rewrite Hb, Forall_singleton; set_solver|].
    intros t [->| [->| ->]]%Hin Hne; [|done|].
    - left. set_solver.
    - right. unfold deps_completed. rewrite Hc, Forall_singleton. set_solver. }
  assert (ready_tasks_of tasks (∅ ∪ {[id a]} ∪ {[id b]}) = [c]) as Hready3.
  { apply ready_tasks_single;
      [done|apply Hin; auto|set_solver
      |unfold deps_completed; rewrite Hc, Forall_singleton; set_solver|].
    intros t [->| [->| ->]]%Hin Hne; [| |done]; left; set_solver. }
  unfold _resolve_dependencies, resolver_init.
  rewrite resolver_loop_continue by (cbn [completed]; rewrite size_empty; lia).
  rewrite (resolver_step_single tasks _ a) by done.
  cbn [completed batches printed].
  rewrite resolver_loop_continue
    by (cbn [completed]; rewrite (left_id_L ∅ (∪)), size_singleton; lia).
  rewrite (resolver_step_single tasks _ b) by done.
  cbn [completed batches printed].
  rewrite resolver_loop_continue
    by (cbn [completed];
        rewrite (left_id_L ∅ (∪)), size_union, !size_singleton by set_solver;
        lia).
  rewrite (resolver_step_single tasks _ c) by done.
  cbn [completed batches printed].
  rewrite resolver_loop_exit; [done|]. cbn [completed].
  rewrite (left_id_L ∅ (∪)), !size_union, !size_singleton by set_solver.
  lia.
Qed.

Lemma elem_of_concat {A} (x : A) (ls : list (list A)) :
  x ∈ concat ls ↔ ∃ l, l ∈ ls ∧ x ∈ l.
Proof.
  induction ls as [|l ls IH]; simpl.
  - split; [by intros ?%elem_of_nil|]. by intros (l & ?%elem_of_nil & _).
  - rewrite elem_of_app, IH. split.
    + intros [Hx|(l' & Hl' & Hx)]; [exists l|exists l'];
        split; try done; [by left|by right].
    + intros (l' & [->|Hl']%elem_of_cons & Hx); [by left|right; eauto].
Qed.

(** Two tasks of the batches with the same id are in the same batch. *)
Lemma batch_of_id_unique (bs : list (list ParallelTask)) i j bi bj t t' :
  NoDup (id <$> concat bs) →
  bs !! i = Some bi → t ∈ bi →
  bs !! j = Some bj → t' ∈ bj →
  id t = id t' → (i ≤ j)%nat → i = j.
Proof.
  intros Hnd Hi Ht Hj Ht' Heq Hle.
  destruct (decide (i = j)) as [|Hne]; [done|]. exfalso.
  rewrite <- (take_drop (S i) bs), concat_app, fmap_app in Hnd.
  apply NoDup_app in Hnd as (_ & Hdisj & _).
  apply (Hdisj (id t)).
  - apply list_elem_of_fmap_2. apply elem_of_concat.
    exists bi. split; [|done].
    apply list_elem_of_lookup. exists i.
    rewrite lookup_take_lt by lia. done.
  - rewrite Heq. apply list_elem_of_fmap_2. apply elem_of_concat.
    exists bj. split; [|done].
    apply list_elem_of_lookup. exists (j - S i)%nat.
    rewrite lookup_drop. rewrite <- Hj. f_equal. lia.
Qed.

Lemma acyclic_ranked tasks (rank : string → nat) :
  (∀ t d, t ∈ tasks → d ∈ dependencies t → (rank d < rank (id t))%nat) →
  acyclic tasks.
Proof.
  intros Hrank a Hcycle.
  assert (∀ x y, tc (depends_on tasks) x y → (rank y < rank x)%nat) as Hdown.
  { induction 1 as [x y (t & Ht & <- & Hd)|x y z (t & Ht & <- & Hd) _ IH].
    - by apply Hrank.
    - specialize (Hrank t y Ht Hd). lia. }
  specialize (Hdown a a Hcycle). lia.
Qed.

(** C1. Dependency order: on a task list with unique ids, no task depending
    on itself, every dependency naming a task of the list and no dependency
    cycle, [_resolve_dependencies] ends within [len(tasks)] iterations
    without forcing a batch, places every task exactly once, and every
    task is in a batch strictly later than the batch of each of its
    dependencies; a linear chain a -> b -> c, in whatever order the three
    tasks are listed, gives exactly the batches [a], [b], [c]. *)
Theorem dependency_order (tasks : list ParallelTask) :
  NoDup (id <$> tasks) →
  (∀ t, t ∈ tasks → id t ∉ dependencies t) →
  (∀ t d, t ∈ tasks → d ∈ dependencies t → d ∈ id <$> tasks) →
  acyclic tasks →
  ∃ bs, _resolve_dependencies (length tasks) tasks = Some (bs, [])
        ∧ concat bs ≡ₚ tasks
        ∧ (∀ i j bi bj t td,
             bs !! i = Some bi → t ∈ bi →
             bs !! j = Some bj → td ∈ bj →
             id td ∈ dependencies t → (j < i)%nat)
        ∧ (∀ a b c,
             tasks ≡ₚ [a; b; c] →
             dependencies a = [] → dependencies b = [id a] →
             dependencies c = [id b] →
             bs = [[a]; [b]; [c]]).
Proof.
  intros Hnd _ Hexist Hacyc.
  destruct (resolver_loop_terminates tasks Hnd (length tasks) resolver_init)
    as (st & Hloop & Hinv & Honce & Hall);
    [apply resolver_inv_init|apply placed_once_init|simpl; lia|].
  destruct (resolver_loop_deps_before tasks Hnd Hexist Hacyc
              (length tasks) resolver_init st) as [Hord Hnf];
    [apply resolver_inv_init
    |intros i b t d Hi; simpl in Hi; by rewrite lookup_nil in Hi
    |done|done|].
  destruct (resolve_terminates tasks Hnd) as (bs & out & Hres & Hperm).
  unfold _resolve_dependencies in Hres. rewrite Hloop in Hres.
  simplify_eq/=.
  exists (batches st). split_and!.
  - unfold _resolve_dependencies. rewrite Hloop. simpl. by rewrite Hnf.
  - done.
  - intros i j bi bj t td Hi Ht Hj Htd Hdep.
    destruct (decide (j < i)%nat) as [|Hge]; [done|]. exfalso.
    pose proof (Hord i bi t (id td) Hi Ht Hdep) as Hearlier.
    apply list_elem_of_fmap in Hearlier as (t' & Heq & Hin').
    apply elem_of_concat in Hin' as (b' & Hb' & Hin').
    apply list_elem_of_lookup in Hb' as (k & Hk).
    apply lookup_take_Some in Hk as [Hk Hki].
    assert (k = j); [|lia].
    apply (batch_of_id_unique (batches st) k j b' bj t' td); try done. lia.
  - intros a b c Habc Ha Hb Hc.
    assert (NoDup [id a; id b; id c]) as Hids.
    { by rewrite Habc in Hnd. }
    apply NoDup_cons in Hids as [Hna Hids].
    apply NoDup_cons in Hids as [Hnb _].
    assert (_resolve_dependencies 3 tasks = Some ([[a]; [b]; [c]], [])) as Hchain.
    { apply resolve_chain; try done; set_solver. }
    assert (length tasks = 3%nat) as Hlen by (by rewrite Habc).
    unfold _resolve_dependencies in Hchain.
    rewrite Hlen in Hloop. rewrite Hloop in Hchain. simpl in Hchain.
    by injection Hchain.
Qed.

Lemma dependency_order_witness :
  ∃ bs, _resolve_dependencies 3 [chain_c; chain_a; chain_b] = Some (bs, [])
        ∧ bs = [[chain_a]; [chain_b]; [chain_c]].
Proof.
  destruct (dependency_order [chain_c; chain_a; chain_b])
    as (bs & Hres & _ & _ & Hchain).
  - vm_compute. repeat constructor; set_solver.
  - intros t Ht. repeat (apply elem_of_cons in Ht as [->|Ht]);
      [vm_compute; set_solver..|by apply elem_of_nil in Ht].
  - intros t d Ht Hd. repeat (apply elem_of_cons in Ht as [->|Ht]);
      [vm_compute in Hd; vm_compute; set_solver..|by apply elem_of_nil in Ht].
  - apply (acyclic_ranked _ rank_abc).
    intros t d Ht Hd. repeat (apply elem_of_cons in Ht as [->|Ht]);
      [|by apply elem_of_nil in Hd|
       |by apply elem_of_nil in Ht];
      simpl in Hd; apply list_elem_of_singleton in Hd as ->;
      vm_compute; lia.
  - exists bs. split; [exact Hres|].
    apply (Hchain chain_a chain_b chain_c); try done.
    apply Permutation_cons_append.
Defined.

(** ** The loop bound *)

Lemma twins_not_NoDup : ¬ NoDup (id <$> [twin_x1; twin_x2]).
Proof. intros [Hx _]%NoDup_cons. apply Hx. set_solver. Qed.

(** C4. The iteration bound fails on the list of two tasks that share the
    id ["x"]: no number of iterations ends the loop of
    [_resolve_dependencies] (so [len(tasks)] = 2 do not).  The first
    iteration places both tasks, [completed] then holds the one id ["x"]
    and the loop condition [len(completed) < len(tasks)] stays true; the
    second iteration finds nothing to place and appends an empty batch
    after printing the warning. *)
Theorem resolver_loop_unbounded_on_shared_id :
  (∀ fuel, _resolve_dependencies fuel [twin_x1; twin_x2] = None)
  ∧ size (completed (resolver_step [twin_x1; twin_x2] resolver_init)) = 1%nat
  ∧ batches (resolver_step [twin_x1; twin_x2]
               (resolver_step [twin_x1; twin_x2] resolver_init))
    = [[twin_x2; twin_x1]; []]
  ∧ printed (resolver_step [twin_x1; twin_x2]
               (resolver_step [twin_x1; twin_x2] resolver_init))
    = [WarnCircular 0].
Proof.
  split_and!.
  - intros fuel. apply resolve_duplicate_id, twins_not_NoDup.
  - by vm_compute.
  - by vm_compute.
  - by vm_compute.
Qed.

(** On a list with pairwise distinct ids the bound holds: [len(tasks)]
    iterations end the loop, every iteration placing a task that was not
    placed ([resolver_step_progress]). *)
Lemma resolver_loop_bound tasks :
  NoDup (id <$> tasks) →
  ∃ st, resolver_loop (length tasks) tasks resolver_init = Some st
        ∧ (length (batches st) ≤ length tasks)%nat
        ∧ Forall (λ b, b ≠ []) (batches st).
Proof.
  intros Hnd.
  assert (∀ fuel st st',
            resolver_inv tasks st → placed_once st →
            Forall (λ b, b ≠ []) (batches st) →
            resolver_loop fuel tasks st = Some st' →
            Forall (λ b, b ≠ []) (batches st')
            ∧ resolver_inv tasks st' ∧ placed_once st') as Hne.
  { induction fuel as [|fuel IH]; intros st st' Hinv Honce Hall; simpl;
      destruct (decide (size (completed st) < length tasks)%nat) as [Hlt|];
      try done; try (by intros [= <-]).
    apply IH; auto using resolver_step_inv, resolver_step_placed_once.
    rewrite resolver_step_batches. apply Forall_app. split; [done|].
    constructor; [|constructor].
    intros Hnil. apply (choose_ready_nonempty tasks Hnd st Hinv Hlt).
    apply Permutation_nil_r. by rewrite <- (sort_by_priority_perm _), Hnil. }
  destruct (resolver_loop_terminates tasks Hnd (length tasks) resolver_init)
    as (st & Hloop & Hinv & Honce & Hall);
    [apply resolver_inv_init|apply placed_once_init|simpl; lia|].
  exists st. split; [done|].
  destruct (Hne (length tasks) resolver_init st) as (Hall' & _ & _);
    [apply resolver_inv_init|apply placed_once_init|constructor|done|].
  split; [|done].
  pose proof (size_completed tasks st Hinv Honce) as Hsize.
  rewrite Hall, size_list_to_set, length_fmap in Hsize by done.
  rewrite Hsize. clear -Hall'.
  induction Hall' as [|b bs Hb _ IH]; simpl; [lia|].
  rewrite length_app. destruct b; [done|]. simpl. lia.
Qed.

(** ** Cycle breaking *)

(** C6. Cycle breaking does not end the loop on the cycle a <-> b
    submitted together with a second task of id ["a"]: no task is ready,
    the first iteration warns and forces the three tasks into one batch,
    but [completed] then holds two ids for three tasks, and every later
    iteration warns again and appends an empty batch; no number of
    iterations makes [_resolve_dependencies] return. *)
Theorem cycle_breaking_unbounded_on_shared_id :
  ready_tasks_of [cycle_a; cycle_b; cycle_a'] ∅ = []
  ∧ (∀ fuel, _resolve_dependencies fuel [cycle_a; cycle_b; cycle_a'] = None)
  ∧ batches (resolver_step [cycle_a; cycle_b; cycle_a']
               (resolver_step [cycle_a; cycle_b; cycle_a'] resolver_init))
    = [[cycle_b; cycle_a'; cycle_a]; []]
  ∧ printed (resolver_step [cycle_a; cycle_b; cycle_a']
               (resolver_step [cycle_a; cycle_b; cycle_a'] resolver_init))
    = [WarnCircular 3; WarnCircular 0].
Proof.
  split_and!.
  - by vm_compute.
  - intros fuel. apply resolve_duplicate_id.
    intros [Hx _]%NoDup_cons. apply Hx. set_solver.
  - by vm_compute.
  - by vm_compute.
Qed.

(** With pairwise distinct ids the forced batch ends the loop: when tasks
    are left and none is ready, the iteration prints the warning, emits
    all the tasks that are left as one batch in priority order, and the
    loop condition is false afterwards. *)
Lemma forced_batch_ends_loop tasks st fuel :
  NoDup (id <$> tasks) →
  resolver_inv tasks st → placed_once st →
  (size (completed st) < length tasks)%nat →
  ready_tasks_of tasks (completed st) = [] →
  resolver_loop (S fuel) tasks st
  = Some {| completed := completed st
                         ∪ list_to_set (id <$> remaining_of tasks (completed st));
            batches := batches st
                       ++ [sort_by_priority (remaining_of tasks (completed st))];
            printed := printed st
                       ++ [WarnCircular (length (remaining_of tasks (completed st)))] |}.
Proof.
  intros Hnd Hinv Honce Hlt Hready.
  rewrite resolver_loop_continue by done.
  assert (choose_ready tasks (completed st)
          = (remaining_of tasks (completed st),
             [WarnCircular (length (remaining_of tasks (completed st)))])) as Hch.
  { unfold choose_ready. by rewrite Hready. }
  assert (resolver_step tasks st
          = {| completed := completed st
                 ∪ list_to_set (id <$> remaining_of tasks (completed st));
               batches := batches st
                 ++ [sort_by_priority (remaining_of tasks (completed st))];
               printed := printed st
                 ++ [WarnCircular (length (remaining_of tasks (completed st)))] |})
    as Hstep.
  { pose proof (resolver_step_completed tasks st) as H1.
    pose proof (resolver_step_batches tasks st) as H2.
    pose proof (resolver_step_printed tasks st) as H3.
    rewrite Hch in H1, H2, H3. simpl in *.
    destruct (resolver_step tasks st). simpl in *. by subst. }
  rewrite Hstep. apply resolver_loop_exit. cbn [completed].
  assert (list_to_set (id <$> tasks)
          ⊆ completed st ∪ list_to_set (id <$> remaining_of tasks (completed st)))
    as Hsub.
  { intros x. rewrite elem_of_list_to_set, list_elem_of_fmap.
    intros (t & -> & Hin). rewrite elem_of_union, elem_of_list_to_set.
    destruct (decide (id t ∈ completed st)) as [|Hnot]; [by left|right].
    apply list_elem_of_fmap_2. unfold remaining_of.
    by apply list_elem_of_filter. }
  apply subseteq_size in Hsub.
  rewrite size_list_to_set, length_fmap in Hsub by done. lia.
Qed.

(** The two-task cycle: both tasks land in one batch, after the warning. *)
Lemma resolve_two_cycle a b :
  id a ≠ id b → dependencies a = [id b] → dependencies b = [id a] →
  _resolve_dependencies 1 [a; b]
  = Some ([sort_by_priority [a; b]], [WarnCircular 2]).
Proof.
  intros Hab Ha Hb.
  assert (ready_tasks_of [a; b] ∅ = []) as Hready.
  { unfold ready_tasks_of. rewrite !filter_cons, filter_nil.
    rewrite !decide_False; [done|idtac|idtac].
    all: intros [_ Hd]; unfold deps_completed in Hd;
      first [rewrite Hb in Hd|rewrite Ha in Hd];
      rewrite Forall_singleton in Hd; set_solver. }
  assert (remaining_of [a; b] ∅ = [a; b]) as Hrem.
  { unfold remaining_of. rewrite !filter_cons, filter_nil.
    rewrite !decide_True by set_solver. done. }
  assert (NoDup (id <$> [a; b])) as Hnd.
  { simpl. apply NoDup_cons. split; [set_solver|apply NoDup_singleton]. }
  assert (size (completed resolver_init) < length [a; b])%nat as Hlt.
  { unfold resolver_init. cbn [completed length]. rewrite size_empty. lia. }
  unfold _resolve_dependencies.
  rewrite (forced_batch_ends_loop [a; b] resolver_init 0 Hnd
             (resolver_inv_init _) placed_once_init Hlt Hready).
  cbn [completed batches printed resolver_init]. by rewrite Hrem.
Qed.

(** ** Priority order within a batch *)

Lemma ready_tasks_no_deps tasks :
  (∀ t, t ∈ tasks → dependencies t = []) → ready_tasks_of tasks ∅ = tasks.
Proof.
  unfold ready_tasks_of. induction tasks as [|t tasks IH]; intros Hdeps; [done|].
  rewrite filter_cons, decide_True.
  - f_equal. apply IH. intros t' Ht'. apply Hdeps. by right.
  - split; [set_solver|]. unfold deps_completed.
    rewrite (Hdeps t) by left. constructor.
Qed.

(** C8, as the code has it.  The claim fails on the empty task list, for
    which the loop body never runs and no batch is produced, and on a list
    in which two tasks share an id, on which the resolver does not
    return. *)
Lemma single_priority_batch_counterexample :
  (∀ fuel, _resolve_dependencies fuel [] = Some ([], []))
  ∧ (dependencies twin_x1 = [] ∧ dependencies twin_x2 = []
     ∧ ∀ fuel, _resolve_dependencies fuel [twin_x1; twin_x2] = None).
Proof.
  split.
  - intros fuel. unfold _resolve_dependencies.
    by rewrite resolver_loop_exit by (simpl; lia).
  - split_and!; [done|done|].
    intros fuel. apply resolve_duplicate_id, twins_not_NoDup.
Qed.

(** C8 (amended). Priority ordering with stable ties: for every non-empty
    task list with pairwise distinct ids and no dependency edges,
    [_resolve_dependencies] returns after one iteration exactly one batch,
    without a warning; the batch holds all the tasks, in descending
    priority, and the tasks of each priority are in their input order. *)
Theorem single_priority_batch (tasks : list ParallelTask) :
  tasks ≠ [] →
  NoDup (id <$> tasks) →
  (∀ t, t ∈ tasks → dependencies t = []) →
  ∃ batch,
    (∀ fuel, _resolve_dependencies (S fuel) tasks = Some ([batch], []))
    ∧ batch ≡ₚ tasks
    ∧ StronglySorted by_priority_desc batch
    ∧ (∀ p, filter (λ t, priority t = p) batch
            = filter (λ t, priority t = p) tasks).
Proof.
  intros Hne Hnd Hdeps. exists (sort_by_priority tasks). split_and!.
  - intros fuel. unfold _resolve_dependencies.
    assert (choose_ready tasks ∅ = (tasks, [])) as Hch.
    { unfold choose_ready. rewrite ready_tasks_no_deps by done.
      by destruct tasks. }
    rewrite resolver_loop_continue.
    2:{ unfold resolver_init. cbn [completed]. rewrite size_empty.
        destruct tasks; [done|simpl; lia]. }
    pose proof (resolver_step_completed tasks resolver_init) as Hc.
    pose proof (resolver_step_batches tasks resolver_init) as Hb.
    pose proof (resolver_step_printed tasks resolver_init) as Hp.
    change (completed resolver_init) with (∅ : gset string) in *.
    rewrite Hch in Hc, Hb, Hp.
    destruct (resolver_step tasks resolver_init) as [c1 b1 p1].
    simpl in Hc, Hb, Hp. subst c1 b1 p1.
    rewrite resolver_loop_exit; [done|]. cbn [completed].
    rewrite (left_id_L ∅ (∪)), size_list_to_set, length_fmap by done. lia.
  - apply sort_by_priority_perm.
  - apply sort_by_priority_sorted.
  - intros p. apply sort_by_priority_stable.
Qed.

Lemma single_priority_batch_witness :
  ∃ batch,
    _resolve_dependencies 1
      [simple_task "a" 1 []; simple_task "b" 3 [];
       simple_task "c" 3 []; simple_task "d" 1 []] = Some ([batch], [])
    ∧ batch = [simple_task "b" 3 []; simple_task "c" 3 [];
               simple_task "a" 1 []; simple_task "d" 1 []].
Proof.
  destruct (single_priority_batch
              [simple_task "a" 1 []; simple_task "b" 3 [];
               simple_task "c" 3 []; simple_task "d" 1 []])
    as (batch & Hres & _).
  - done.
  - vm_compute. repeat (apply NoDup_cons; split; [set_solver|]). constructor.
  - intros t Ht. repeat (apply elem_of_cons in Ht as [->|Ht]); try done.
    by apply elem_of_nil in Ht.
  - exists batch. split; [apply Hres|].
    specialize (Hres 0%nat). vm_compute in Hres. by injection Hres as <-.
Defined.

(** ** What the resolver returns, whenever it returns *)

Lemma resolver_loop_inv tasks fuel : ∀ st st',
  NoDup (id <$> tasks) →
  resolver_inv tasks st → placed_once st →
  resolver_loop fuel tasks st = Some st' →
  resolver_inv tasks st' ∧ placed_once st'
  ∧ ¬ (size (completed st') < length tasks)%nat.
Proof.
  induction fuel as [|fuel IH]; intros st st' Hnd Hinv Honce; simpl;
    destruct (decide (size (completed st) < length tasks)%nat) as [Hlt|Hge];
    try done; try (by intros [= <-]).
  apply IH; auto using resolver_step_inv, resolver_step_placed_once.
Qed.

Lemma resolve_returns_unique_ids tasks fuel bs out :
  _resolve_dependencies fuel tasks = Some (bs, out) → NoDup (id <$> tasks).
Proof.
  intros Hres. destruct (decide (NoDup (id <$> tasks))) as [|Hdup]; [done|].
  by rewrite resolve_duplicate_id in Hres.
Qed.

(** The batches hold every task of the input exactly once. *)
Lemma resolve_returns_partition tasks fuel bs out :
  _resolve_dependencies fuel tasks = Some (bs, out) → concat bs ≡ₚ tasks.
Proof.
  intros Hres. pose proof (resolve_returns_unique_ids _ _ _ _ Hres) as Hnd.
  unfold _resolve_dependencies in Hres.
  destruct (resolver_loop fuel tasks resolver_init) as [st|] eqn:Hloop;
    simplify_eq/=.
  destruct (resolver_loop_inv tasks fuel resolver_init st Hnd
              (resolver_inv_init _) placed_once_init Hloop)
    as ([Hc Ht] & Honce & Hexit).
  assert (completed st = list_to_set (id <$> tasks)) as Hall.
  { apply set_subseteq_size_eq; [by apply resolver_inv_subseteq|].
    rewrite size_list_to_set, length_fmap by done. lia. }
  apply NoDup_Permutation.
  - by eapply NoDup_fmap_1.
  - by eapply NoDup_fmap_1.
  - intros t. split; [apply Ht|]. intros Hin.
    assert (id t ∈ completed st) as Hid.
    { rewrite Hall, elem_of_list_to_set. by apply list_elem_of_fmap_2. }
    rewrite Hc, elem_of_list_to_set in Hid.
    apply list_elem_of_fmap in Hid as (t' & Heq & Hin').
    assert (t = t') as ->; [|done].
    apply (NoDup_ids_inj tasks); [done|done|by apply Ht|done].
Qed.

(** ** The batch drivers *)

Section Drivers.

Variable query : string → ClaudeCodeOptions → query_run.

Lemma run_with_semaphore_value task :
  (run_with_semaphore query task).1 = GatherValue (own_result query task).
Proof.
  unfold run_with_semaphore, own_result.
  by destruct (execute_single_task query task).
Qed.

Lemma assign_results_app b1 b2 m :
  assign_results query (b1 ++ b2) m = assign_results query b2 (assign_results query b1 m).
Proof. unfold assign_results. by rewrite fold_left_app. Qed.

Lemma assign_results_cons t batch m :
  assign_results query (t :: batch) m
  = assign_results query batch (<[id t := own_result query t]> m).
Proof. done. Qed.




Lemma process_without_progress_cons t g pairs st :
  process_without_progress ((t, g) :: pairs) st
  = process_without_progress pairs
      {| self := record_completed (id t) (to_result t g) (self st);
         progress := progress st;
         all_results := <[id t := to_result t g]> (all_results st);
         calls := calls st |}.
Proof. done. Qed.

Lemma process_with_progress_cons progress_tasks t g pairs st :
  process_with_progress progress_tasks ((t, g) :: pairs) st
  = process_with_progress progress_tasks pairs
      {| self := record_completed (id t) (to_result t g) (self st);
         progress := match progress_tasks !! id t with
                     | Some pid => update_completed pid (progress st)
                     | None => progress st
                     end;
         all_results := <[id t := to_result t g]> (all_results st);
         calls := calls st |}.
Proof. done. Qed.

Lemma zip_gathered_cons t batch :
  zip (t :: batch) ((λ task, (run_with_semaphore query task).1) <$> (t :: batch))
  = (t, GatherValue (own_result query t))
    :: zip batch ((λ task, (run_with_semaphore query task).1) <$> batch).
Proof. simpl. by rewrite run_with_semaphore_value. Qed.

Lemma process_without_progress_spec batch : ∀ st,
  all_results (process_without_progress
                 (zip batch ((λ task, (run_with_semaphore query task).1) <$> batch))
                 st)
  = assign_results query batch (all_results st)
  ∧ calls (process_without_progress
             (zip batch ((λ task, (run_with_semaphore query task).1) <$> batch))
             st)
    = calls st
  ∧ max_parallel (self (process_without_progress
             (zip batch ((λ task, (run_with_semaphore query task).1) <$> batch))
             st))
    = max_parallel (self st).
Proof.
  induction batch as [|t batch IH]; intros st; [done|].
  rewrite zip_gathered_cons, process_without_progress_cons, assign_results_cons.
  destruct (IH
    {| self := record_completed (id t)
                 (to_result t (GatherValue (own_result query t))) (self st);
       progress := progress st;
       all_results := <[id t := to_result t (GatherValue (own_result query t))]>
                        (all_results st);
       calls := calls st |}) as (Hr & Hc & Hm).
  rewrite Hr, Hc, Hm. done.
Qed.

Lemma process_with_progress_spec progress_tasks batch : ∀ st,
  all_results (process_with_progress progress_tasks
                 (zip batch ((λ task, (run_with_semaphore query task).1) <$> batch))
                 st)
  = assign_results query batch (all_results st)
  ∧ calls (process_with_progress progress_tasks
             (zip batch ((λ task, (run_with_semaphore query task).1) <$> batch))
             st)
    = calls st
  ∧ max_parallel (self (process_with_progress progress_tasks
             (zip batch ((λ task, (run_with_semaphore query task).1) <$> batch))
             st))
    = max_parallel (self st).
Proof.
  induction batch as [|t batch IH]; intros st; [done|].
  rewrite zip_gathered_cons, process_with_progress_cons, assign_results_cons.
  destruct (IH
    {| self := record_completed (id t)
                 (to_result t (GatherValue (own_result query t))) (self st);
       progress := match progress_tasks !! id t with
                   | Some pid => update_completed pid (progress st)
                   | None => progress st
                   end;
       all_results := <[id t := to_result t (GatherValue (own_result query t))]>
                        (all_results st);
       calls := calls st |}) as (Hr & Hc & Hm).
  rewrite Hr, Hc, Hm. done.
Qed.

Lemma batch_without_progress_spec :
  body_spec query (λ _, batch_without_progress query).
Proof.
  intros idx batch st. unfold batch_without_progress.
  destruct (semaphore_gate (max_parallel (self st)) batch) as [stop|]; [done|].
  simpl.
  pose proof (process_without_progress_spec batch
    {| self := self st; progress := progress st;
       all_results := all_results st;
       calls := calls st ++ calls_of batch |}) as (Hr & Hc & Hm).
  simpl in *. by rewrite Hr, Hc, Hm.
Qed.

Lemma batch_with_progress_spec total :
  body_spec query (batch_with_progress query total).
Proof.
  intros idx batch st. unfold batch_with_progress.
  destruct (queue_batch batch (progress st)) as [progress_tasks rows].
  change (max_parallel (console_print (BatchHeader (idx + 1) total) (self st)))
    with (max_parallel (self st)).
  destruct (semaphore_gate (max_parallel (self st)) batch) as [stop|]; [done|].
  simpl.
  pose proof (process_with_progress_spec progress_tasks batch
    {| self := console_print (BatchHeader (idx + 1) total) (self st);
       progress := apply_updates query progress_tasks batch rows;
       all_results := all_results st;
       calls := calls st ++ calls_of batch |}) as (Hr & Hc & Hm).
  simpl in *. by rewrite Hr, Hc, Hm.
Qed.

(** A driver that reaches its [return] has assigned the own result of each
    task of each batch, batch after batch, and called the capability once
    per task. *)
Lemma run_batches_returned body :
  body_spec query body →
  ∀ task_batches idx st st',
    run_batches body idx task_batches st = (None, st') →
    all_results st' = assign_results query (concat task_batches) (all_results st)
    ∧ calls st' = calls st ++ calls_of (concat task_batches).
Proof.
  intros Hbody task_batches.
  induction task_batches as [|batch rest IH]; intros idx st st' Hrun; simpl in *.
  - simplify_eq. by rewrite app_nil_r.
  - destruct (Hbody idx batch st) as [_ Hgate].
    destruct (body idx batch st) as [[stop|] st1] eqn:Hb; [by simplify_eq|].
    destruct (semaphore_gate (max_parallel (self st)) batch);
      simpl in Hgate; destruct Hgate as (? & Hr & Hc); [done|].
    destruct (IH _ _ _ Hrun) as [Hr' Hc'].
    rewrite Hr', Hc', Hr, Hc, assign_results_app.
    unfold calls_of. by rewrite fmap_app, app_assoc.
Qed.

(** With at least one permit every batch passes the gate and the driver
    reaches its [return]. *)
Lemma run_batches_returns body :
  body_spec query body →
  ∀ task_batches idx st,
    0 < max_parallel (self st) →
    (run_batches body idx task_batches st).1 = None.
Proof.
  intros Hbody task_batches.
  induction task_batches as [|batch rest IH]; intros idx st Hpos; [done|].
  simpl. destruct (Hbody idx batch st) as [Hm Hgate].
  unfold semaphore_gate in Hgate.
  rewrite decide_False in Hgate by lia.
  rewrite decide_False in Hgate by lia.
  destruct Hgate as (Hnone & _).
  destruct (body idx batch st) as [[stop|] st1]; [done|].
  apply IH. simpl in Hm. lia.
Qed.

End Drivers.

(** ** [execute_batch] *)

Section ExecuteBatch.

Variable query : string → ClaudeCodeOptions → query_run.

Lemma driver_spec (self0 : ParallelTaskExecutor) (show_progress : bool)
    (task_batches : list (list ParallelTask)) :
  let r := if show_progress
           then _execute_with_progress query self0 task_batches []
           else _execute_without_progress query self0 task_batches in
  (0 < max_parallel self0 → r.1 = None)
  ∧ (r.1 = None →
     all_results r.2 = assign_results query (concat task_batches) ∅
     ∧ calls r.2 = calls_of (concat task_batches)).
Proof.
  destruct show_progress; simpl; split.
  - intros Hpos. unfold _execute_with_progress.
    by apply (run_batches_returns query); [apply batch_with_progress_spec|].
  - unfold _execute_with_progress. intros Hnone.
    destruct (run_batches _ 0 task_batches (driver_init self0 [])) as [o st']
      eqn:Hrun.
    simpl in Hnone. subst o.
    by apply (run_batches_returned query _
                (batch_with_progress_spec query _)) in Hrun.
  - intros Hpos. unfold _execute_without_progress.
    by apply (run_batches_returns query); [apply batch_without_progress_spec|].
  - unfold _execute_without_progress. intros Hnone.
    destruct (run_batches _ 0 task_batches (driver_init self0 [])) as [o st']
      eqn:Hrun.
    simpl in Hnone. subst o.
    by apply (run_batches_returned query _
                (batch_without_progress_spec query)) in Hrun.
Qed.

(** A returned mapping comes from batches of the resolver, which hold the
    submitted tasks once each. *)
Lemma execute_batch_returned fuel self0 tasks show_progress results st :
  execute_batch query fuel self0 tasks show_progress = (Returned results, st) →
  ∃ bs out,
    _resolve_dependencies fuel tasks = Some (bs, out)
    ∧ results = assign_results query (concat bs) ∅
    ∧ calls st = calls_of (concat bs).
Proof.
  unfold execute_batch.
  destruct (_resolve_dependencies fuel tasks) as [[bs out]|] eqn:Hres; [|done].
  set (self1 := {| max_parallel := max_parallel self0;
                   console := console self0 ++ out;
                   completed_tasks := completed_tasks self0 |}).
  pose proof (driver_spec self1 show_progress bs) as [_ Hret].
  simpl in Hret.
  destruct (if show_progress then _ else _) as [[stop|] st1]; simpl;
    intros [= <- <-]; simpl in *.
  destruct (Hret eq_refl) as [Hr Hc]. eauto.
Qed.




End ExecuteBatch.



(** ** Duplicate ids *)


(** ** Failure isolation *)





Section Isolation.

Variable query : string → ClaudeCodeOptions → query_run.


End Isolation.



(** ** The chunks of a run *)

Lemma append_blocks_chunks content : ∀ parts,
  append_blocks parts content = parts ++ message_chunks (ContentMessage content).
Proof.
  unfold append_blocks. induction content as [|block content IH]; intros parts.
  - simpl. by rewrite app_nil_r.
  - simpl. rewrite IH. destruct block; simpl; [|done].
    by rewrite <- app_assoc.
Qed.

Lemma append_message_chunks parts m :
  append_message parts m = parts ++ message_chunks m.
Proof.
  destruct m; simpl.
  - apply append_blocks_chunks.
  - done.
  - by rewrite app_nil_r.
Qed.

Lemma result_parts_chunks messages : ∀ parts,
  fold_left append_message messages parts = parts ++ chunks messages.
Proof.
  induction messages as [|m messages IH]; intros parts.
  - simpl. by rewrite app_nil_r.
  - simpl. rewrite IH, append_message_chunks. unfold chunks. simpl.
    by rewrite <- app_assoc.
Qed.

Lemma chunks_app ms1 ms2 : chunks (ms1 ++ ms2) = chunks ms1 ++ chunks ms2.
Proof. unfold chunks. by rewrite bind_app. Qed.

Lemma join_cons sep part rest :
  rest ≠ [] → join sep (part :: rest) = (part ++ sep ++ join sep rest)%string.
Proof. by destruct rest. Qed.

Lemma join_concat sep parts : join sep parts = String.concat sep parts.
Proof.
  induction parts as [|part rest IH]; [done|].
  destruct rest as [|part' rest]; [done|].
  rewrite join_cons by done. rewrite IH. done.
Qed.

(** C9, as the code has it.  The claim fails on a run that yields the two
    chunks ["a"] and ["b"]: the result string is not their concatenation
    ["ab"], a line feed stands between them. *)
Lemma chunks_concatenated_counterexample :
  chunks (yielded (two_chunk_query "p" (options_of chain_a))) = ["a"; "b"]
  ∧ result (execute_single_task two_chunk_query chain_a).1
    = String "a" (String "010" (String "b" EmptyString))
  ∧ result (execute_single_task two_chunk_query chain_a).1 ≠ ("a" ++ "b")%string.
Proof. split_and!; [done|done|]. by vm_compute. Qed.

(** C9 (amended). Chunk handling: when the run of the capability ends
    without raising, the task succeeds, and its result string is the chunks
    of the run in the order received, joined with one line feed between
    consecutive chunks ([sep.join], the same as [String.concat]); with no
    chunk the result is the empty string. *)
Theorem chunks_joined_by_newline
    (query : string → ClaudeCodeOptions → query_run) (task : ParallelTask) :
  ending (query (prompt task) (options_of task)) = Exhausted →
  let r := (execute_single_task query task).1 in
  let received := chunks (yielded (query (prompt task) (options_of task))) in
  success r = true
  ∧ error r = None
  ∧ result r = String.concat newline received
  ∧ (received = [] → result r = "")
  ∧ (∀ first rest, received = first :: rest → rest ≠ [] →
       result r = (first ++ newline ++ String.concat newline rest)%string).
Proof.
  intros Hend. unfold execute_single_task. rewrite Hend. simpl.
  rewrite result_parts_chunks. simpl.
  split; [done|]. split; [done|]. split; [apply join_concat|]. split.
  - by intros ->.
  - intros first rest -> Hrest. rewrite join_cons by done.
    by rewrite join_concat.
Qed.

Lemma chunks_joined_by_newline_witness :
  result (execute_single_task two_chunk_query chain_a).1
  = String.concat newline ["a"; "b"].
Proof.
  destruct (chunks_joined_by_newline two_chunk_query chain_a)
    as (_ & _ & Hres & _); [reflexivity|].
  exact Hres.
Defined.

(** ** The time bound of a task *)

(** C10. The time bound of a task is not enforced: [execute_single_task]
    never reads [task.timeout].  The task bounded to 1 unit whose run of the
    capability completes after 5 units gets a successful result with no
    error, where the claim requires a failed one of the timeout kind; and
    for every capability and task, the result does not depend on the
    bound.  (The handler of [asyncio.TimeoutError] only sees a timeout
    that the capability raises by itself.) *)
Theorem timeout_not_enforced :
  timeout bounded_task = Some 1
  ∧ elapsed (slow_query (prompt bounded_task) (options_of bounded_task)) = 5
  ∧ (execute_single_task slow_query bounded_task).1
    = {| task_id := "slow"; success := true; result := "late"; error := None;
         execution_time := 5; tokens_used := None |}
  ∧ (∀ (query : string → ClaudeCodeOptions → query_run) task bound,
       (execute_single_task query (with_timeout bound task)).1
       = (execute_single_task query task).1).
Proof. split_and!; done. Qed.

(** ** The concurrency cap *)

Lemma in_flight_insert (l : list phase) i p q :
  l !! i = Some p →
  (length (filter (λ x, x = InFlight) (<[i := q]> l))
   + (if decide (p = InFlight) then 1 else 0)
   = length (filter (λ x, x = InFlight) l)
     + (if decide (q = InFlight) then 1 else 0))%nat.
Proof.
  revert i. induction l as [|x l IH]; intros [|i] Hi; simplify_eq/=.
  - rewrite !filter_cons.
    destruct (decide (p = InFlight)), (decide (q = InFlight)); simpl; lia.
  - rewrite !filter_cons. specialize (IH i Hi).
    destruct (decide (x = InFlight)); simpl; lia.
Qed.

Lemma semaphore_new_inv value batch s0 :
  semaphore_new value batch = Some s0 → permits_inv value s0.
Proof.
  unfold semaphore_new. destruct (decide (value < 0)); [done|].
  intros [= <-]. unfold permits_inv, in_flight. simpl.
  assert (filter (λ p, p = InFlight) ((λ _ : ParallelTask, Waiting) <$> batch) = [])
    as ->.
  { induction batch as [|t batch IH]; [done|].
    simpl. rewrite filter_cons, decide_False by done. exact IH. }
  simpl. lia.
Qed.

Lemma batch_step_inv value s s' :
  batch_step s s' → permits_inv value s → permits_inv value s'.
Proof.
  intros Hstep [Hsum Hpos]. unfold permits_inv, in_flight in *.
  destruct Hstep as [i s Hi Hfree|i s Hi]; simpl.
  - pose proof (in_flight_insert (phases s) i Waiting InFlight Hi) as Hcount.
    rewrite decide_False, decide_True in Hcount by done. lia.
  - pose proof (in_flight_insert (phases s) i InFlight Finished Hi) as Hcount.
    rewrite decide_True, decide_False in Hcount by done. lia.
Qed.

Lemma batch_steps_inv value s0 s :
  rtc batch_step s0 s → permits_inv value s0 → permits_inv value s.
Proof. induction 1; eauto using batch_step_inv. Qed.

Lemma batch_step_length s s' :
  batch_step s s' → length (phases s') = length (phases s).
Proof. intros [i ? _ _|i ? _]; simpl; apply length_insert. Qed.

Lemma batch_steps_length s0 s :
  rtc batch_step s0 s → length (phases s) = length (phases s0).
Proof.
  induction 1 as [|x y z Hstep _ IH]; [done|].
  rewrite IH. by apply batch_step_length.
Qed.

(** C2. Concurrency cap: [__init__] clamps the requested [max_parallel] to
    10 without rejecting it, and in every state that a batch of
    [execute_batch] can reach under its semaphore, in whatever order the
    event loop runs the coroutines, the number of calls of the capability
    in flight is at most [self.max_parallel] (hence at most 10, at most
    the requested value and at most the size of the batch). *)
Theorem concurrency_cap (requested : Z) (batch : list ParallelTask)
    (s0 s : batch_state) :
  semaphore_new (max_parallel (__init__ requested)) batch = Some s0 →
  rtc batch_step s0 s →
  max_parallel (__init__ requested) = Z.min requested 10
  ∧ (Z.of_nat (in_flight s) ≤ max_parallel (__init__ requested))%Z
  ∧ (Z.of_nat (in_flight s) ≤ 10)%Z
  ∧ (Z.of_nat (in_flight s) ≤ requested)%Z
  ∧ (in_flight s ≤ length batch)%nat.
Proof.
  intros Hnew Hsteps.
  pose proof (batch_steps_inv _ _ _ Hsteps (semaphore_new_inv _ _ _ Hnew))
    as [Hsum Hpos].
  assert (in_flight s ≤ length batch)%nat as Hlen.
  { unfold in_flight.
    etrans; [apply length_filter|].
    rewrite (batch_steps_length _ _ Hsteps).
    unfold semaphore_new in Hnew.
    destruct (decide (max_parallel (__init__ requested) < 0)); [done|].
    injection Hnew as <-. simpl. by rewrite length_fmap. }
  simpl in *. split_and!; try done; lia.
Qed.

(** Three tasks, two permits: two calls in flight, the third waits. *)
Lemma concurrency_cap_witness :
  ∃ s, rtc batch_step
         {| permits := 2; phases := [Waiting; Waiting; Waiting] |} s
       ∧ in_flight s = 2%nat
       ∧ permits s = 0
       ∧ (Z.of_nat (in_flight s) ≤ 2)%Z.
Proof.
  exists {| permits := 0; phases := [InFlight; Waiting; InFlight] |}.
  assert (rtc batch_step
            {| permits := 2; phases := [Waiting; Waiting; Waiting] |}
            {| permits := 0; phases := [InFlight; Waiting; InFlight] |})
    as Hsteps.
  { eapply rtc_l.
    { apply (step_acquire 0 {| permits := 2;
                              phases := [Waiting; Waiting; Waiting] |});
        [reflexivity|simpl; lia]. }
    eapply rtc_l; [|apply rtc_refl].
    apply (step_acquire 2 {| permits := 1;
                            phases := [InFlight; Waiting; Waiting] |});
      [reflexivity|simpl; lia]. }
  split; [exact Hsteps|]. split; [reflexivity|]. split; [reflexivity|].
  destruct (concurrency_cap 2 [chain_a; chain_b; chain_c]
              {| permits := 2; phases := [Waiting; Waiting; Waiting] |}
              {| permits := 0; phases := [InFlight; Waiting; InFlight] |})
    as (_ & Hcap & _); [reflexivity|exact Hsteps|exact Hcap].
Defined.

(** The gate of the drivers, read on the permit pool: a negative value
    makes the constructor raise; with the value 0 no coroutine of a
    non-empty batch can take a step; with a positive value the batch can
    run to the state in which every coroutine has finished and all the
    permits are back. *)
Lemma gate_raises value batch :
  semaphore_gate value batch = Some RaisedValueError
  ↔ semaphore_new value batch = None.
Proof.
  unfold semaphore_gate, semaphore_new.
  destruct (decide (value < 0)); [done|].
  destruct (decide (value = 0 ∧ batch ≠ [])); split; done.
Qed.

Lemma gate_blocked value batch :
  semaphore_gate value batch = Some Blocked →
  ∃ s0, semaphore_new value batch = Some s0
        ∧ Waiting ∈ phases s0
        ∧ ∀ s, ¬ batch_step s0 s.
Proof.
  unfold semaphore_gate, semaphore_new.
  destruct (decide (value < 0)); [done|].
  destruct (decide (value = 0 ∧ batch ≠ [])) as [[-> Hne]|]; [|done].
  intros _. eexists. split; [done|]. simpl. split.
  - destruct batch as [|t batch]; [done|]. simpl. apply list_elem_of_here.
  - intros s Hstep.
    inversion Hstep as [i s' Hi Hfree|i s' Hi]; simplify_eq/=; try lia.
    apply list_lookup_fmap_Some in Hi as (? & ? & ?). done.
Qed.

Lemma insert_middle {A} (l1 l2 : list A) (x y : A) :
  <[length l1 := x]> (l1 ++ y :: l2) = l1 ++ x :: l2.
Proof.
  rewrite <- (Nat.add_0_r (length l1)). by rewrite insert_app_r.
Qed.

Lemma batch_runs_to_end value (waiting : list phase) : ∀ finished,
  0 < value →
  Forall (λ p, p = Waiting) waiting →
  rtc batch_step
    {| permits := value; phases := finished ++ waiting |}
    {| permits := value;
       phases := finished ++ ((λ _, Finished) <$> waiting) |}.
Proof.
  induction waiting as [|p waiting IH]; intros finished Hpos Hall; [done|].
  apply Forall_cons in Hall as [-> Hall].
  eapply rtc_l.
  { apply (step_acquire (length finished)); simpl; [|done].
    by apply list_lookup_middle. }
  simpl. rewrite insert_middle.
  eapply rtc_l.
  { apply (step_release (length finished)); simpl.
    by apply list_lookup_middle. }
  simpl. rewrite insert_middle.
  replace (value - 1 + 1) with value by lia.
  specialize (IH (finished ++ [Finished]) Hpos Hall).
  by rewrite <- !app_assoc in IH.
Qed.

Lemma gate_open value batch :
  semaphore_gate value batch = None → batch ≠ [] →
  ∃ s0 s, semaphore_new value batch = Some s0
          ∧ rtc batch_step s0 s
          ∧ Forall (λ p, p = Finished) (phases s)
          ∧ permits s = value.
Proof.
  unfold semaphore_gate, semaphore_new.
  destruct (decide (value < 0)); [done|].
  destruct (decide (value = 0 ∧ batch ≠ [])) as [|Hn]; [done|].
  intros _ Hne.
  assert (0 < value) as Hpos.
  { destruct (decide (value = 0)) as [->|]; [|lia]. naive_solver. }
  eexists _, _. split; [done|]. split.
  - apply (batch_runs_to_end value _ [] Hpos).
    apply Forall_fmap. by apply Forall_true.
  - simpl. split; [|done].
    apply Forall_fmap. by apply Forall_true.
Qed.

(** * Further properties of the resolver *)

Lemma resolver_inv_placed_ids tasks st :
  resolver_inv tasks st → completed st = placed_ids (batches st).
Proof. by intros [Hc _]. Qed.

Lemma choose_ready_unforced tasks placed :
  ready_tasks_of tasks placed ≠ [] →
  choose_ready tasks placed = (ready_tasks_of tasks placed, []).
Proof. unfold choose_ready. by destruct (ready_tasks_of tasks placed). Qed.

Lemma sort_by_priority_nil_inv l : sort_by_priority l = [] → l = [].
Proof.
  intros Hnil. apply Permutation_nil_r.
  by rewrite <- (sort_by_priority_perm l), Hnil.
Qed.

Lemma layered_nil tasks : layered tasks [].
Proof. intros i b Hi. by rewrite lookup_nil in Hi. Qed.

Lemma layered_snoc tasks bs b :
  layered tasks bs →
  b = sort_by_priority (ready_tasks_of tasks (placed_ids bs)) → b ≠ [] →
  layered tasks (bs ++ [b]).
Proof.
  intros Hlay Hb Hne i b' Hi.
  destruct (decide (i < length bs)%nat) as [Hlt|Hge].
  - rewrite lookup_app_l in Hi by done.
    rewrite take_app_le by lia. by apply Hlay.
  - rewrite lookup_app_r in Hi by lia.
    apply list_lookup_singleton_Some in Hi as [Hi0 <-].
    rewrite take_app_length' by lia. done.
Qed.

Lemma layered_prefix tasks bs1 bs2 :
  layered tasks (bs1 ++ bs2) → layered tasks bs1.
Proof.
  intros Hlay i b Hi.
  pose proof (lookup_lt_Some _ _ _ Hi) as Hlt.
  destruct (Hlay i b) as [Hb Hne].
  - by rewrite lookup_app_l.
  - split; [|done]. by rewrite take_app_le in Hb by lia.
Qed.

(** How a run of the loop ends on a list with pairwise distinct ids: with
    no warning and every batch a layer, or with one warning after the
    layers, the last batch being all the tasks that were left when none of
    them was ready. *)
Lemma resolver_loop_shape tasks :
  NoDup (id <$> tasks) →
  ∀ fuel st st',
    resolver_inv tasks st → placed_once st →
    printed st = [] → layered tasks (batches st) →
    resolver_loop fuel tasks st = Some st' →
    (printed st' = [] ∧ layered tasks (batches st'))
    ∨ (∃ bs',
         layered tasks bs'
         ∧ ready_tasks_of tasks (placed_ids bs') = []
         ∧ remaining_of tasks (placed_ids bs') ≠ []
         ∧ batches st'
           = bs' ++ [sort_by_priority (remaining_of tasks (placed_ids bs'))]
         ∧ printed st'
           = [WarnCircular (length (remaining_of tasks (placed_ids bs')))]).
Proof.
  intros Hnd fuel.
  induction fuel as [|fuel IH]; intros st st' Hinv Honce Hpr Hlay Hloop.
  - simpl in Hloop.
    destruct (decide (size (completed st) < length tasks)%nat); [done|].
    left. by simplify_eq.
  - destruct (decide (size (completed st) < length tasks)%nat) as [Hlt|Hge].
    + destruct (decide (ready_tasks_of tasks (completed st) = [])) as [Hr|Hr].
      * rewrite (forced_batch_ends_loop tasks st fuel Hnd Hinv Honce Hlt Hr)
          in Hloop.
        injection Hloop as <-. right. exists (batches st).
        rewrite <- (resolver_inv_placed_ids tasks st Hinv).
        split_and!; try done.
        -- by apply remaining_nonempty.
        -- simpl. by rewrite Hpr.
      * rewrite resolver_loop_continue in Hloop by done.
        apply (IH (resolver_step tasks st) st');
          auto using resolver_step_inv, resolver_step_placed_once.
        -- rewrite resolver_step_printed, choose_ready_unforced by done.
           simpl. by rewrite app_nil_r.
        -- rewrite resolver_step_batches, choose_ready_unforced by done.
           simpl. apply layered_snoc; [done| |].
           ++ by rewrite (resolver_inv_placed_ids tasks st Hinv).
           ++ by intros ?%sort_by_priority_nil_inv.
    + rewrite resolver_loop_exit in Hloop by done.
      left. by simplify_eq.
Qed.

Lemma resolve_shape tasks fuel bs out :
  _resolve_dependencies fuel tasks = Some (bs, out) →
  (out = [] ∧ layered tasks bs)
  ∨ (∃ bs',
       layered tasks bs'
       ∧ ready_tasks_of tasks (placed_ids bs') = []
       ∧ remaining_of tasks (placed_ids bs') ≠ []
       ∧ bs = bs' ++ [sort_by_priority (remaining_of tasks (placed_ids bs'))]
       ∧ out = [WarnCircular (length (remaining_of tasks (placed_ids bs')))]).
Proof.
  intros Hres. pose proof (resolve_returns_unique_ids _ _ _ _ Hres) as Hnd.
  unfold _resolve_dependencies in Hres.
  destruct (resolver_loop fuel tasks resolver_init) as [st|] eqn:Hloop;
    simplify_eq/=.
  apply (resolver_loop_shape tasks Hnd fuel resolver_init st);
    auto using resolver_inv_init, placed_once_init, layered_nil.
Qed.

Lemma layered_ready tasks bs i b t :
  layered tasks bs → bs !! i = Some b → t ∈ b →
  t ∈ tasks
  ∧ (id t ∉ placed_ids (take i bs))
  ∧ deps_completed (placed_ids (take i bs)) t.
Proof.
  intros Hlay Hi Ht. destruct (Hlay i b Hi) as [-> _].
  rewrite sort_by_priority_elem in Ht. unfold ready_tasks_of in Ht.
  apply list_elem_of_filter in Ht. naive_solver.
Qed.

Lemma layered_deps_before tasks bs : layered tasks bs → deps_before bs.
Proof.
  intros Hlay i b t d Hi Ht Hd.
  destruct (layered_ready tasks bs i b t Hlay Hi Ht) as (_ & _ & Hdeps).
  unfold deps_completed in Hdeps. rewrite Forall_forall in Hdeps.
  specialize (Hdeps d Hd). unfold placed_ids in Hdeps.
  by rewrite elem_of_list_to_set in Hdeps.
Qed.

Lemma batch_index_spec bs j b x :
  bs !! j = Some b → x ∈ id <$> b →
  (batch_index bs x ≤ j)%nat
  ∧ ∃ b', bs !! batch_index bs x = Some b' ∧ x ∈ id <$> b'.
Proof.
  intros Hj Hx. unfold batch_index.
  destruct (list_find_elem_of (λ b, x ∈ id <$> b) bs b) as [[k b'] Hfind];
    [by eapply list_elem_of_lookup_2|done|].
  rewrite Hfind. simpl.
  apply list_find_Some in Hfind as (Hk & Hxk & Hfirst).
  split; [|eauto].
  destruct (decide (k ≤ j)%nat) as [|Hgt]; [done|].
  destruct (Hfirst j b Hj); [lia|done].
Qed.

Lemma batch_index_of_task bs i b t :
  NoDup (id <$> concat bs) → bs !! i = Some b → t ∈ b →
  batch_index bs (id t) = i.
Proof.
  intros Hnd Hi Ht.
  destruct (batch_index_spec bs i b (id t) Hi) as (Hle & b' & Hk & Hin);
    [by apply list_elem_of_fmap_2|].
  apply list_elem_of_fmap in Hin as (t' & Heq & Ht').
  by apply (batch_of_id_unique bs _ i b' b t' t).
Qed.

Lemma elem_of_concat_take {A} (ls : list (list A)) i (x : A) :
  x ∈ concat (take i ls) ↔ ∃ j l, (j < i)%nat ∧ ls !! j = Some l ∧ x ∈ l.
Proof.
  rewrite elem_of_concat. split.
  - intros (l & Hl & Hx). apply list_elem_of_lookup in Hl as (j & Hj).
    apply lookup_take_Some in Hj as [Hj Hlt]. eauto.
  - intros (j & l & Hlt & Hj & Hx). exists l. split; [|done].
    apply list_elem_of_lookup. exists j. by rewrite lookup_take_lt.
Qed.

(** Batches that hold every task once and put each task after its
    dependencies witness that the dependencies exist and have no cycle. *)
Lemma deps_before_well_formed tasks bs :
  NoDup (id <$> tasks) → concat bs ≡ₚ tasks → deps_before bs →
  dependencies_exist tasks ∧ acyclic tasks.
Proof.
  intros Hnd Hperm Hord.
  assert (NoDup (id <$> concat bs)) as Hndb by (by rewrite Hperm).
  assert (∀ t d, t ∈ tasks → d ∈ dependencies t →
            ∃ i b j b' t', bs !! i = Some b ∧ t ∈ b ∧ (j < i)%nat
                           ∧ bs !! j = Some b' ∧ t' ∈ b' ∧ d = id t')
    as Hearlier.
  { intros t d Ht Hd. rewrite <- Hperm in Ht.
    apply elem_of_concat in Ht as (b & Hb & Ht).
    apply list_elem_of_lookup in Hb as (i & Hi).
    pose proof (Hord i b t d Hi Ht Hd) as Hin.
    apply list_elem_of_fmap in Hin as (t' & -> & Hin).
    apply elem_of_concat_take in Hin as (j & b' & Hlt & Hj & Hin).
    eauto 12. }
  split.
  - intros t d Ht Hd.
    destruct (Hearlier t d Ht Hd) as (i & b & j & b' & t' & _ & _ & _ & Hj & Ht' & ->).
    apply list_elem_of_fmap_2. rewrite <- Hperm. apply elem_of_concat.
    exists b'. split; [|done]. by eapply list_elem_of_lookup_2.
  - apply (acyclic_ranked tasks (batch_index bs)).
    intros t d Ht Hd.
    destruct (Hearlier t d Ht Hd)
      as (i & b & j & b' & t' & Hi & Htb & Hlt & Hj & Ht' & ->).
    rewrite (batch_index_of_task bs i b t), (batch_index_of_task bs j b' t')
      by done.
    done.
Qed.

(** X1. [_resolve_dependencies] returns exactly on the task lists with
    pairwise distinct ids: on such a list [len(tasks)] iterations are
    enough, and on a list in which two tasks share an id no number of
    iterations is. *)
Theorem resolve_returns_iff_unique_ids (tasks : list ParallelTask) :
  (NoDup (id <$> tasks) →
   is_Some (_resolve_dependencies (length tasks) tasks))
  ∧ (∀ fuel, is_Some (_resolve_dependencies fuel tasks) →
             NoDup (id <$> tasks)).
Proof.
  split.
  - intros Hnd. destruct (resolve_terminates tasks Hnd) as (bs & out & -> & _).
    by eexists.
  - intros fuel [[bs out] Hres]. by eapply resolve_returns_unique_ids.
Qed.

Lemma resolve_returns_iff_unique_ids_witness :
  is_Some (_resolve_dependencies 2 [cycle_a; cycle_b])
  ∧ NoDup (id <$> [chain_a; chain_b; chain_c]).
Proof.
  split.
  - apply (proj1 (resolve_returns_iff_unique_ids [cycle_a; cycle_b])).
    simpl. apply NoDup_cons. split; [set_solver|apply NoDup_singleton].
  - apply (proj2 (resolve_returns_iff_unique_ids [chain_a; chain_b; chain_c]) 3%nat).
    eexists. vm_compute. reflexivity.
Defined.

Lemma resolver_loop_batches_nonempty tasks :
  NoDup (id <$> tasks) →
  ∀ fuel st st',
    resolver_inv tasks st → placed_once st →
    Forall (λ b, b ≠ []) (batches st) →
    resolver_loop fuel tasks st = Some st' →
    Forall (λ b, b ≠ []) (batches st').
Proof.
  intros Hnd fuel.
  induction fuel as [|fuel IH]; intros st st' Hinv Honce Hall; simpl;
    destruct (decide (size (completed st) < length tasks)%nat) as [Hlt|];
    try done; try (by intros [= <-]).
  intros Hloop.
  apply (IH (resolver_step tasks st) st');
    auto using resolver_step_inv, resolver_step_placed_once.
  rewrite resolver_step_batches. apply Forall_app. split; [done|].
  constructor; [|constructor].
  intros Hnil%sort_by_priority_nil_inv.
  by apply (choose_ready_nonempty tasks Hnd st Hinv Hlt).
Qed.

Lemma resolver_loop_batches_count tasks fuel : ∀ st st',
  resolver_loop fuel tasks st = Some st' →
  (length (batches st') ≤ length (batches st) + fuel)%nat.
Proof.
  induction fuel as [|fuel IH]; intros st st'; simpl;
    destruct (decide (size (completed st) < length tasks)%nat) as [Hlt|];
    try done; try (intros [= <-]; lia).
  intros Hloop. apply IH in Hloop.
  rewrite resolver_step_batches, length_app in Hloop. simpl in Hloop. lia.
Qed.


(** X2. Whenever [_resolve_dependencies] returns, whatever the dependency
    edges (cyclic, missing or none), its batches hold every task of the
    input exactly once, no batch is empty, and there are at most
    [len(tasks)] batches, one per iteration that ran. *)
Theorem resolve_batches_partition (tasks : list ParallelTask) (fuel : nat)
    (bs : list (list ParallelTask)) (out : list console_line) :
  _resolve_dependencies fuel tasks = Some (bs, out) →
  concat bs ≡ₚ tasks
  ∧ Forall (λ b, b ≠ []) bs
  ∧ (length bs ≤ length tasks)%nat
  ∧ (length bs ≤ fuel)%nat.
Proof.
  intros Hres.
  pose proof (resolve_returns_unique_ids _ _ _ _ Hres) as Hnd.
  pose proof (resolve_returns_partition _ _ _ _ Hres) as Hperm.
  unfold _resolve_dependencies in Hres.
  destruct (resolver_loop fuel tasks resolver_init) as [st|] eqn:Hloop;
    simplify_eq/=.
  assert (Forall (λ b, b ≠ []) (batches st)) as Hne.
  { apply (resolver_loop_batches_nonempty tasks Hnd fuel resolver_init st);
      auto using resolver_inv_init, placed_once_init. }
  split_and!; [done|done| |].
  - rewrite <- (Permutation_length Hperm). clear -Hne.
    induction Hne as [|b bs Hb _ IH]; simpl; [lia|].
    rewrite length_app. destruct b; [done|]. simpl. lia.
  - apply resolver_loop_batches_count in Hloop. simpl in Hloop. lia.
Qed.

Lemma resolve_batches_partition_witness :
  concat [[cycle_b; cycle_a]] ≡ₚ [cycle_a; cycle_b].
Proof.
  apply (resolve_batches_partition [cycle_a; cycle_b] 1
           [[cycle_b; cycle_a]] [WarnCircular 2]).
  by vm_compute.
Defined.

Lemma resolver_loop_batches_sorted tasks fuel : ∀ st st',
  Forall (λ b, ∃ sub, sub `sublist_of` tasks ∧ b = sort_by_priority sub)
         (batches st) →
  resolver_loop fuel tasks st = Some st' →
  Forall (λ b, ∃ sub, sub `sublist_of` tasks ∧ b = sort_by_priority sub)
         (batches st').
Proof.
  induction fuel as [|fuel IH]; intros st st' Hall; simpl;
    destruct (decide (size (completed st) < length tasks)%nat) as [Hlt|];
    try done; try (by intros [= <-]).
  apply IH. rewrite resolver_step_batches. apply Forall_app. split; [done|].
  constructor; [|constructor].
  exists (choose_ready tasks (completed st)).1. split; [|done].
  etrans; [apply choose_ready_sublist|apply remaining_sublist].
Qed.

(** X3. Every batch that [_resolve_dependencies] returns, forced or not, is
    in descending priority order, and its tasks of any one priority stand
    in the order they have in the input (the sort is stable), whatever the
    dependency edges. *)
Theorem resolve_batches_sorted (tasks : list ParallelTask) (fuel : nat)
    (bs : list (list ParallelTask)) (out : list console_line)
    (b : list ParallelTask) :
  _resolve_dependencies fuel tasks = Some (bs, out) →
  b ∈ bs →
  StronglySorted by_priority_desc b
  ∧ ∀ p, filter (λ t, priority t = p) b `sublist_of` tasks.
Proof.
  intros Hres Hb. unfold _resolve_dependencies in Hres.
  destruct (resolver_loop fuel tasks resolver_init) as [st|] eqn:Hloop;
    simplify_eq/=.
  pose proof (resolver_loop_batches_sorted tasks fuel resolver_init st
                (Forall_nil_2 _) Hloop) as Hall.
  rewrite Forall_forall in Hall.
  destruct (Hall b Hb) as (sub & Hsub & ->). split.
  - apply sort_by_priority_sorted.
  - intros p. rewrite sort_by_priority_stable.
    etrans; [apply sublist_filter|done].
Qed.

Lemma resolve_batches_sorted_witness :
  StronglySorted by_priority_desc [cycle_b; cycle_a].
Proof.
  apply (resolve_batches_sorted [cycle_a; cycle_b] 1
           [[cycle_b; cycle_a]] [WarnCircular 2] [cycle_b; cycle_a]).
  - by vm_compute.
  - apply list_elem_of_here.
Defined.

(** X4. On a task list with pairwise distinct ids, [_resolve_dependencies]
    prints the circular-dependency warning exactly when some dependency
    names no task of the list or the dependencies form a cycle: a run
    that prints nothing certifies that every dependency exists and that
    there is no cycle, and on such a list nothing is printed. *)
Theorem resolve_warns_iff_ill_formed (tasks : list ParallelTask) (fuel : nat)
    (bs : list (list ParallelTask)) (out : list console_line) :
  _resolve_dependencies fuel tasks = Some (bs, out) →
  out = [] ↔ dependencies_exist tasks ∧ acyclic tasks.
Proof.
  intros Hres.
  pose proof (resolve_returns_unique_ids _ _ _ _ Hres) as Hnd.
  pose proof (resolve_returns_partition _ _ _ _ Hres) as Hperm.
  split.
  - intros ->.
    destruct (resolve_shape _ _ _ _ Hres)
      as [[_ Hlay]|(bs' & _ & _ & _ & _ & Hout)]; [|done].
    apply (deps_before_well_formed tasks bs); [done|done|].
    by apply (layered_deps_before tasks).
  - intros [Hexist Hacyc].
    destruct (resolve_shape _ _ _ _ Hres)
      as [[-> _]|(bs' & _ & Hready & Hrem & _ & _)]; [done|].
    by destruct (ready_tasks_nonempty tasks Hexist Hacyc _ Hrem).
Qed.

Lemma resolve_warns_iff_ill_formed_witness :
  ¬ (dependencies_exist [cycle_a; cycle_b] ∧ acyclic [cycle_a; cycle_b]).
Proof.
  intros Hwf.
  apply (resolve_warns_iff_ill_formed [cycle_a; cycle_b] 1
           [[cycle_b; cycle_a]] [WarnCircular 2]) in Hwf.
  - discriminate Hwf.
  - by vm_compute.
Defined.

(** X5. In a run of [_resolve_dependencies] that prints no warning no task
    waits longer than its dependencies make it: the first batch is exactly
    the tasks without dependencies, and every task of a later batch has a
    dependency in the batch just before its own. *)
Theorem resolve_batches_earliest (tasks : list ParallelTask) (fuel : nat)
    (bs : list (list ParallelTask)) :
  _resolve_dependencies fuel tasks = Some (bs, []) →
  (∀ b t, bs !! 0%nat = Some b →
          t ∈ b ↔ t ∈ tasks ∧ dependencies t = [])
  ∧ (∀ i b t, bs !! S i = Some b → t ∈ b →
              ∃ d b' t', d ∈ dependencies t ∧ bs !! i = Some b'
                         ∧ t' ∈ b' ∧ id t' = d).
Proof.
  intros Hres.
  destruct (resolve_shape _ _ _ _ Hres)
    as [[_ Hlay]|(bs' & _ & _ & _ & _ & Hout)]; [|done].
  split.
  - intros b t Hb. destruct (Hlay 0%nat b Hb) as [-> _].
    rewrite sort_by_priority_elem. unfold ready_tasks_of, placed_ids.
    rewrite take_0. simpl. rewrite list_elem_of_filter.
    unfold deps_completed. split.
    + intros [[_ Hdeps] Ht]. split; [done|].
      destruct (dependencies t) as [|d ds]; [done|].
      apply Forall_cons in Hdeps as [Hd _]. set_solver.
    + intros [Ht ->]. split; [|done]. split; [set_solver|constructor].
  - intros i b t Hb Ht.
    destruct (layered_ready tasks bs (S i) b t Hlay Hb Ht)
      as (Htasks & Hfresh & Hdeps).
    destruct (lookup_lt_is_Some_2 bs i) as [b' Hb'];
      [apply lookup_lt_Some in Hb; lia|].
    assert (take (S i) bs = take i bs ++ [b']) as Htake
      by (by apply take_S_r).
    rewrite Htake in Hfresh, Hdeps. unfold placed_ids in Hfresh, Hdeps.
    rewrite concat_app, fmap_app, list_to_set_app_L in Hfresh, Hdeps.
    simpl in Hfresh, Hdeps. rewrite app_nil_r in Hfresh, Hdeps.
    assert (¬ deps_completed (placed_ids (take i bs)) t) as Hnot.
    { intros Hearly. apply Hfresh. apply elem_of_union. right.
      apply elem_of_list_to_set, list_elem_of_fmap_2.
      destruct (Hlay i b' Hb') as [-> _].
      apply sort_by_priority_elem. unfold ready_tasks_of.
      apply list_elem_of_filter. split; [|done]. split; [|done].
      intros Hin. apply Hfresh. apply elem_of_union. by left. }
    unfold deps_completed in Hnot, Hdeps.
    apply not_Forall_Exists in Hnot; [|intros x; apply _].
    apply Exists_exists in Hnot as (d & Hd & Hdn).
    rewrite Forall_forall in Hdeps. specialize (Hdeps d Hd).
    apply elem_of_union in Hdeps as [Hold|Hnew]; [done|].
    apply elem_of_list_to_set, list_elem_of_fmap in Hnew as (t' & -> & Ht').
    eauto 10.
Qed.

Lemma resolve_batches_earliest_witness :
  ∃ d b' t', d ∈ dependencies chain_c
             ∧ [[chain_a]; [chain_b]; [chain_c]] !! 1%nat = Some b'
             ∧ t' ∈ b' ∧ id t' = d.
Proof.
  apply (proj2 (resolve_batches_earliest [chain_c; chain_a; chain_b] 3
                  [[chain_a]; [chain_b]; [chain_c]] ltac:(by vm_compute))
           1%nat [chain_c] chain_c).
  - reflexivity.
  - apply list_elem_of_here.
Defined.

(** X6. On a task list with pairwise distinct ids [_resolve_dependencies]
    prints at most one warning.  When it prints one, the forced batch is the
    last batch; the warning carries its size; none of its tasks was ready
    (each has a dependency that no earlier batch placed); and the batches
    before it put every task after all of its dependencies. *)
Theorem resolve_forced_batch_last (tasks : list ParallelTask) (fuel : nat)
    (bs : list (list ParallelTask)) (out : list console_line) :
  _resolve_dependencies fuel tasks = Some (bs, out) →
  out ≠ [] →
  ∃ bs' forced,
    bs = bs' ++ [forced]
    ∧ out = [WarnCircular (length forced)]
    ∧ forced ≠ []
    ∧ deps_before bs'
    ∧ (∀ t, t ∈ forced ↔ t ∈ tasks ∧ id t ∉ placed_ids bs')
    ∧ (∀ t, t ∈ forced →
            ∃ d, d ∈ dependencies t ∧ d ∉ placed_ids bs').
Proof.
  intros Hres Hout.
  destruct (resolve_shape _ _ _ _ Hres)
    as [[-> _]|(bs' & Hlay & Hready & Hrem & -> & ->)]; [done|].
  exists bs', (sort_by_priority (remaining_of tasks (placed_ids bs'))).
  assert (∀ t, t ∈ sort_by_priority (remaining_of tasks (placed_ids bs'))
               ↔ t ∈ tasks ∧ id t ∉ placed_ids bs') as Hforced.
  { intros t. rewrite sort_by_priority_elem. unfold remaining_of.
    rewrite list_elem_of_filter. naive_solver. }
  split_and!; try done.
  - by rewrite sort_by_priority_length.
  - by intros ?%sort_by_priority_nil_inv.
  - by apply (layered_deps_before tasks).
  - intros t [Ht Hfresh]%Hforced.
    assert (¬ deps_completed (placed_ids bs') t) as Hnot.
    { intros Hdeps.
      eapply (filter_nil_not_elem_of _ _ t Hready); [|exact Ht]. done. }
    unfold deps_completed in Hnot.
    apply not_Forall_Exists in Hnot; [|intros x; apply _].
    apply Exists_exists in Hnot as (d & Hd & Hdn). eauto.
Qed.

Lemma resolve_forced_batch_last_witness :
  ∃ bs' forced,
    [[cycle_b; cycle_a]] = bs' ++ [forced]
    ∧ [WarnCircular 2] = [WarnCircular (length forced)].
Proof.
  destruct (resolve_forced_batch_last [cycle_a; cycle_b] 1
              [[cycle_b; cycle_a]] [WarnCircular 2])
    as (bs' & forced & Hbs & Hout & _); [by vm_compute|done|].
  by exists bs', forced.
Defined.

(** X7. Two tasks with distinct ids that depend on each other are resolved
    in one iteration: the warning is printed for 2 tasks and both land in
    the one batch, the task of higher priority first, the first of the
    input first when the priorities are equal. *)
Theorem resolve_two_task_cycle (a b : ParallelTask) :
  id a ≠ id b → dependencies a = [id b] → dependencies b = [id a] →
  _resolve_dependencies 1 [a; b]
  = Some ([if decide (priority b ≤ priority a)%Z then [a; b] else [b; a]],
          [WarnCircular 2]).
Proof.
  intros Hab Ha Hb. rewrite (resolve_two_cycle a b Hab Ha Hb).
  simpl. by destruct (decide (priority b ≤ priority a)%Z).
Qed.

Lemma resolve_two_task_cycle_witness :
  _resolve_dependencies 1 [cycle_a; cycle_b]
  = Some ([[cycle_b; cycle_a]], [WarnCircular 2]).
Proof.
  rewrite (resolve_two_task_cycle cycle_a cycle_b); [reflexivity|done..].
Defined.

(** * Further properties of the drivers *)

Section DriverEffects.

Variable query : string → ClaudeCodeOptions → query_run.

Lemma process_without_progress_completed batch : ∀ st,
  completed_tasks (self (process_without_progress
     (zip batch ((λ task, (run_with_semaphore query task).1) <$> batch)) st))
  = assign_results query batch (completed_tasks (self st)).
Proof.
  induction batch as [|t batch IH]; intros st; [done|].
  rewrite zip_gathered_cons, process_without_progress_cons, assign_results_cons.
  by rewrite IH.
Qed.

Lemma process_with_progress_completed progress_tasks batch : ∀ st,
  completed_tasks (self (process_with_progress progress_tasks
     (zip batch ((λ task, (run_with_semaphore query task).1) <$> batch)) st))
  = assign_results query batch (completed_tasks (self st)).
Proof.
  induction batch as [|t batch IH]; intros st; [done|].
  rewrite zip_gathered_cons, process_with_progress_cons, assign_results_cons.
  by rewrite IH.
Qed.

Lemma batch_without_progress_effect :
  body_effect query (λ _, batch_without_progress query).
Proof.
  intros idx batch st.
  pose proof (batch_without_progress_spec query idx batch st) as [Hm Hspec].
  split; [done|].
  unfold batch_without_progress in *.
  destruct (semaphore_gate (max_parallel (self st)) batch) as [stop|].
  - destruct Hspec as (? & ? & ?). done.
  - destruct Hspec as (? & ? & ?). split_and!; try done.
    simpl. by rewrite process_without_progress_completed.
Qed.

Lemma batch_with_progress_effect total :
  body_effect query (batch_with_progress query total).
Proof.
  intros idx batch st.
  pose proof (batch_with_progress_spec query total idx batch st) as [Hm Hspec].
  split; [done|].
  unfold batch_with_progress in *.
  destruct (queue_batch batch (progress st)) as [progress_tasks rows].
  change (max_parallel (console_print (BatchHeader (idx + 1) total) (self st)))
    with (max_parallel (self st)) in *.
  destruct (semaphore_gate (max_parallel (self st)) batch) as [stop|].
  - destruct Hspec as (? & ? & ?). done.
  - destruct Hspec as (? & ? & ?). split_and!; try done.
    simpl. by rewrite process_with_progress_completed.
Qed.

(** A driver runs the batches up to the first one that the gate stops. *)
Lemma run_batches_effect body :
  body_effect query body →
  ∀ task_batches idx st,
    (run_batches body idx task_batches st).1
    = first_interruption (max_parallel (self st)) task_batches
    ∧ all_results (run_batches body idx task_batches st).2
      = assign_results query
          (concat (executed_batches (max_parallel (self st)) task_batches))
          (all_results st)
    ∧ calls (run_batches body idx task_batches st).2
      = calls st
        ++ calls_of (concat (executed_batches (max_parallel (self st))
                               task_batches))
    ∧ completed_tasks (self (run_batches body idx task_batches st).2)
      = assign_results query
          (concat (executed_batches (max_parallel (self st)) task_batches))
          (completed_tasks (self st))
    ∧ max_parallel (self (run_batches body idx task_batches st).2)
      = max_parallel (self st).
Proof.
  intros Hbody task_batches.
  induction task_batches as [|batch rest IH]; intros idx st.
  - simpl. by rewrite app_nil_r.
  - simpl. destruct (Hbody idx batch st) as [Hm Hgate].
    destruct (semaphore_gate (max_parallel (self st)) batch) as [stop|].
    + destruct Hgate as (Hs & Hr & Hc & Hd).
      destruct (body idx batch st) as [o st1]. simpl in *. subst o. simpl.
      by rewrite app_nil_r.
    + destruct Hgate as (Hs & Hr & Hc & Hd).
      destruct (body idx batch st) as [o st1]. simpl in *. subst o.
      destruct (IH (S idx) st1) as (H1 & H2 & H3 & H4 & H5).
      rewrite Hm in *.
      rewrite H1, H2, H3, H4, H5, Hr, Hc, Hd.
      rewrite !assign_results_app. unfold calls_of.
      by rewrite fmap_app, app_assoc.
Qed.

Lemma assign_results_union batch : ∀ m,
  assign_results query batch m = assign_results query batch ∅ ∪ m.
Proof.
  induction batch as [|t batch IH]; intros m.
  - simpl. by rewrite (left_id_L ∅ (∪)).
  - rewrite !assign_results_cons.
    rewrite (IH (<[id t := own_result query t]> m)).
    rewrite (IH (<[id t := own_result query t]> ∅)).
    rewrite <- (assoc_L (∪)). f_equal.
    rewrite insert_empty. by rewrite insert_union_singleton_l.
Qed.

Lemma assign_results_lookup_inv batch k r : ∀ m,
  assign_results query batch m !! k = Some r →
  m !! k = Some r ∨ ∃ t, t ∈ batch ∧ id t = k ∧ r = own_result query t.
Proof.
  induction batch as [|t batch IH]; intros m Hk; [by left|].
  rewrite assign_results_cons in Hk.
  destruct (IH _ Hk) as [Hm|(t' & Ht' & <- & ->)].
  - destruct (decide (id t = k)) as [<-|Hne].
    + rewrite lookup_insert_eq in Hm. simplify_eq.
      right. exists t. split; [apply list_elem_of_here|done].
    + rewrite lookup_insert_ne in Hm by done. by left.
  - right. exists t'. split; [by apply list_elem_of_further|done].
Qed.

Lemma executed_batches_open value task_batches :
  0 < value → executed_batches value task_batches = task_batches.
Proof.
  intros Hpos. induction task_batches as [|b rest IH]; [done|].
  simpl. unfold semaphore_gate.
  rewrite decide_False by lia. rewrite decide_False by lia. by rewrite IH.
Qed.


Lemma first_interruption_None value task_batches :
  first_interruption value task_batches = None →
  executed_batches value task_batches = task_batches.
Proof.
  induction task_batches as [|b rest IH]; [done|].
  simpl. destruct (semaphore_gate value b); [done|].
  intros Hrest. by rewrite IH.
Qed.

End DriverEffects.

Section ExecuteBatchEffects.

Variable query : string → ClaudeCodeOptions → query_run.

Lemma driver_effect (self1 : ParallelTaskExecutor) (show_progress : bool)
    (task_batches : list (list ParallelTask)) :
  let r := if show_progress
           then _execute_with_progress query self1 task_batches []
           else _execute_without_progress query self1 task_batches in
  r.1 = first_interruption (max_parallel self1) task_batches
  ∧ all_results r.2
    = assign_results query
        (concat (executed_batches (max_parallel self1) task_batches)) ∅
  ∧ calls r.2
    = calls_of (concat (executed_batches (max_parallel self1) task_batches))
  ∧ completed_tasks (self r.2)
    = assign_results query
        (concat (executed_batches (max_parallel self1) task_batches))
        (completed_tasks self1)
  ∧ max_parallel (self r.2) = max_parallel self1.
Proof.
  destruct show_progress; simpl.
  - unfold _execute_with_progress.
    apply (run_batches_effect query _
             (batch_with_progress_effect query (length task_batches))
             task_batches 0%nat (driver_init self1 [])).
  - unfold _execute_without_progress.
    apply (run_batches_effect query _ (batch_without_progress_effect query)
             task_batches 0%nat (driver_init self1 [])).
Qed.

(** What a call of [execute_batch] has done when the resolver has returned
    the batches [bs]. *)
Lemma execute_batch_effect fuel self0 tasks show_progress bs out :
  _resolve_dependencies fuel tasks = Some (bs, out) →
  (execute_batch query fuel self0 tasks show_progress).1
  = match first_interruption (max_parallel self0) bs with
    | None => Returned (assign_results query (concat bs) ∅)
    | Some stop => Interrupted stop
    end
  ∧ calls (execute_batch query fuel self0 tasks show_progress).2
    = calls_of (concat (executed_batches (max_parallel self0) bs))
  ∧ completed_tasks (self (execute_batch query fuel self0 tasks show_progress).2)
    = assign_results query
        (concat (executed_batches (max_parallel self0) bs))
        (completed_tasks self0)
  ∧ max_parallel (self (execute_batch query fuel self0 tasks show_progress).2)
    = max_parallel self0.
Proof.
  intros Hres. unfold execute_batch. rewrite Hres.
  set (self1 := {| max_parallel := max_parallel self0;
                   console := console self0 ++ out;
                   completed_tasks := completed_tasks self0 |}).
  pose proof (driver_effect self1 show_progress bs) as (H1 & H2 & H3 & H4 & H5).
  simpl in H1, H2, H3, H4, H5.
  destruct (if show_progress then _ else _) as [o st1]. simpl in *.
  subst o. split_and!; try done.
  unfold completion_of. simpl.
  destruct (first_interruption (max_parallel self0) bs) eqn:Hfirst; [done|].
  by rewrite H2, (first_interruption_None _ _ Hfirst).
Qed.

End ExecuteBatchEffects.

(** X8. Every entry of a mapping that [execute_batch] returns is the
    result of the run of a submitted task, filed under that task's id, which
    is also its [task_id]; it is successful exactly when it carries no
    error, and a failed entry has the empty result text (the chunks
    received before the failure are dropped). *)
Theorem returned_entries_well_formed
    (query : string → ClaudeCodeOptions → query_run)
    (fuel : nat) (self0 : ParallelTaskExecutor) (tasks : list ParallelTask)
    (show_progress : bool) (results : gmap string TaskResult)
    (st : driver_state) (k : string) (r : TaskResult) :
  execute_batch query fuel self0 tasks show_progress = (Returned results, st) →
  results !! k = Some r →
  (∃ t, t ∈ tasks ∧ id t = k ∧ r = own_result query t)
  ∧ task_id r = k
  ∧ (success r = true ↔ error r = None)
  ∧ (success r = false → result r = "").
Proof.
  intros (bs & out & Hres & -> & _)%execute_batch_returned Hk.
  pose proof (resolve_returns_partition _ _ _ _ Hres) as Hperm.
  apply assign_results_lookup_inv in Hk as [Hk|(t & Ht & <- & ->)];
    [by rewrite lookup_empty in Hk|].
  split.
  - exists t. by rewrite <- Hperm.
  - unfold own_result, execute_single_task.
    destruct (ending (query (prompt t) (options_of t))); simpl;
      split_and!; done.
Qed.

Lemma returned_entries_well_formed_witness :
  task_id (own_result echo_query cycle_a) = "a"
  ∧ (success (own_result echo_query cycle_a) = true
     ↔ error (own_result echo_query cycle_a) = None).
Proof.
  destruct (returned_entries_well_formed echo_query 2 (__init__ 4)
              [cycle_a; cycle_b] true
              (assign_results echo_query [cycle_b; cycle_a] ∅)
              (execute_batch echo_query 2 (__init__ 4)
                 [cycle_a; cycle_b] true).2
              "a" (own_result echo_query cycle_a))
    as (_ & Hid & Hok & _).
  - vm_compute. reflexivity.
  - vm_compute. reflexivity.
  - by split.
Defined.

(** X9. On the empty task list [execute_batch] returns the empty mapping at
    once, for every executor (whatever its [max_parallel], also zero or
    negative: no semaphore is created), with or without the progress
    display: the resolver's loop body never runs, the capability is not
    called, nothing is printed and the executor object is unchanged. *)
Theorem execute_batch_empty
    (query : string → ClaudeCodeOptions → query_run)
    (fuel : nat) (self0 : ParallelTaskExecutor) (show_progress : bool) :
  (execute_batch query fuel self0 [] show_progress).1 = Returned ∅
  ∧ calls (execute_batch query fuel self0 [] show_progress).2 = []
  ∧ progress (execute_batch query fuel self0 [] show_progress).2 = []
  ∧ self (execute_batch query fuel self0 [] show_progress).2 = self0.
Proof.
  assert (_resolve_dependencies fuel [] = Some ([], [])) as Hres.
  { unfold _resolve_dependencies.
    by rewrite resolver_loop_exit by (simpl; lia). }
  unfold execute_batch. rewrite Hres.
  destruct self0 as [mp con done_tasks]. simpl. rewrite app_nil_r.
  by destruct show_progress.
Qed.



(** X11. A call of [execute_batch] that returns leaves in
    [self.completed_tasks] what was there before, overwritten by the
    returned mapping: every returned entry is recorded, an older entry of
    another id is kept, and [max_parallel] is unchanged. *)
Theorem completed_tasks_accumulate
    (query : string → ClaudeCodeOptions → query_run)
    (fuel : nat) (self0 : ParallelTaskExecutor) (tasks : list ParallelTask)
    (show_progress : bool) (results : gmap string TaskResult)
    (st : driver_state) :
  execute_batch query fuel self0 tasks show_progress = (Returned results, st) →
  completed_tasks (self st) = results ∪ completed_tasks self0
  ∧ (∀ k r, results !! k = Some r → completed_tasks (self st) !! k = Some r)
  ∧ (∀ k, results !! k = None →
          completed_tasks (self st) !! k = completed_tasks self0 !! k)
  ∧ max_parallel (self st) = max_parallel self0.
Proof.
  intros Hret.
  pose proof Hret as (bs & out & Hres & -> & _)%execute_batch_returned.
  destruct (execute_batch_effect query fuel self0 tasks show_progress bs out
              Hres) as (H1 & _ & H3 & H4).
  rewrite Hret in H1, H3, H4. simpl in H1, H3, H4.
  destruct (first_interruption (max_parallel self0) bs) eqn:Hfirst; [done|].
  rewrite (first_interruption_None _ _ Hfirst) in H3.
  assert (completed_tasks (self st)
          = assign_results query (concat bs) ∅ ∪ completed_tasks self0) as Hun.
  { by rewrite H3, assign_results_union. }
  split_and!; [done| | |done].
  - intros k r Hk. rewrite Hun. by apply lookup_union_Some_l.
  - intros k Hk. rewrite Hun. by apply lookup_union_r.
Qed.

Lemma completed_tasks_accumulate_witness :
  completed_tasks
    (self (execute_batch echo_query 2 (__init__ 4) [cycle_a; cycle_b] true).2)
  = assign_results echo_query [cycle_b; cycle_a] ∅
    ∪ completed_tasks (__init__ 4).
Proof.
  apply (completed_tasks_accumulate echo_query 2 (__init__ 4)
           [cycle_a; cycle_b] true).
  vm_compute. reflexivity.
Defined.

Lemma lookup_concat_batch {A} (bs : list (list A)) : ∀ i (x : A),
  concat bs !! i = Some x →
  ∃ k b, bs !! k = Some b ∧ x ∈ b ∧ (length (concat (take k bs)) ≤ i)%nat.
Proof.
  induction bs as [|b bs IH]; intros i x Hi;
    [simpl in Hi; by rewrite lookup_nil in Hi|].
  simpl in Hi. destruct (decide (i < length b)%nat) as [Hlt|Hge].
  - rewrite lookup_app_l in Hi by done.
    exists 0%nat, b. split; [done|]. split; [|simpl; lia].
    by eapply list_elem_of_lookup_2.
  - rewrite lookup_app_r in Hi by lia.
    destruct (IH _ _ Hi) as (k & b' & Hk & Hx & Hlen).
    exists (S k), b'. split; [done|]. split; [done|].
    simpl. rewrite length_app. lia.
Qed.

(** In the list of all the tasks of the batches, a task stands after each
    of its dependencies. *)
Lemma deps_before_positions (bs : list (list ParallelTask)) i j t td :
  NoDup (id <$> concat bs) → deps_before bs →
  concat bs !! i = Some t → concat bs !! j = Some td →
  id td ∈ dependencies t → (j < i)%nat.
Proof.
  intros Hnd Hord Hi Hj Hdep.
  destruct (lookup_concat_batch bs i t Hi) as (k & b & Hk & Ht & Hlen).
  pose proof (Hord k b t (id td) Hk Ht Hdep) as Hin.
  apply list_elem_of_lookup in Hin as (j' & Hj').
  pose proof (lookup_lt_Some _ _ _ Hj') as Hlt.
  rewrite length_fmap in Hlt.
  assert ((id <$> concat bs) !! j' = Some (id td)) as Hj''.
  { rewrite <- (take_drop k bs), concat_app, fmap_app.
    rewrite lookup_app_l by (by rewrite length_fmap). done. }
  assert ((id <$> concat bs) !! j = Some (id td)) as Hjid.
  { by rewrite list_lookup_fmap, Hj. }
  assert (j = j') as -> by (by eapply NoDup_lookup).
  lia.
Qed.

(** X12. When the resolver has printed no warning, a call of
    [execute_batch] that returns has called the capability once per
    submitted task, and for each task only after it had called it for
    every task that this one depends on. *)
Theorem calls_follow_dependencies
    (query : string → ClaudeCodeOptions → query_run)
    (fuel : nat) (self0 : ParallelTaskExecutor) (tasks : list ParallelTask)
    (show_progress : bool) (bs : list (list ParallelTask))
    (results : gmap string TaskResult) (st : driver_state) :
  _resolve_dependencies fuel tasks = Some (bs, []) →
  execute_batch query fuel self0 tasks show_progress = (Returned results, st) →
  ∃ order,
    order ≡ₚ tasks
    ∧ calls st = (λ task, (prompt task, options_of task)) <$> order
    ∧ ∀ i j t td,
        order !! i = Some t → order !! j = Some td →
        id td ∈ dependencies t → (j < i)%nat.
Proof.
  intros Hres Hret.
  pose proof (resolve_returns_unique_ids _ _ _ _ Hres) as Hnd.
  pose proof (resolve_returns_partition _ _ _ _ Hres) as Hperm.
  apply execute_batch_returned in Hret as (bs' & out' & Hres' & _ & Hcalls).
  rewrite Hres in Hres'. simplify_eq.
  exists (concat bs'). split_and!; [done|done|].
  intros i j t td Hi Hj Hdep.
  apply (deps_before_positions bs' i j t td); try done.
  - by rewrite Hperm.
  - destruct (resolve_shape _ _ _ _ Hres)
      as [[_ Hlay]|(? & _ & _ & _ & _ & ?)]; [|done].
    by apply (layered_deps_before tasks).
Qed.

Lemma calls_follow_dependencies_witness :
  ∃ order,
    order ≡ₚ [chain_c; chain_a; chain_b]
    ∧ calls (execute_batch echo_query 3 (__init__ 4)
               [chain_c; chain_a; chain_b] false).2
      = (λ task, (prompt task, options_of task)) <$> order.
Proof.
  destruct (calls_follow_dependencies echo_query 3 (__init__ 4)
              [chain_c; chain_a; chain_b] false
              [[chain_a]; [chain_b]; [chain_c]]
              (assign_results echo_query [chain_a; chain_b; chain_c] ∅)
              (execute_batch echo_query 3 (__init__ 4)
                 [chain_c; chain_a; chain_b] false).2)
    as (order & Hperm & Hcalls & _).
  - by vm_compute.
  - vm_compute. reflexivity.
  - by exists order.
Defined.


Section ConsoleLines.

Variable query : string → ClaudeCodeOptions → query_run.

Lemma process_with_progress_console progress_tasks pairs : ∀ st,
  console (self (process_with_progress progress_tasks pairs st))
  = console (self st).
Proof.
  induction pairs as [|[t g] pairs IH]; intros st; [done|].
  by rewrite process_with_progress_cons, IH.
Qed.

Lemma process_without_progress_console pairs : ∀ st,
  console (self (process_without_progress pairs st)) = console (self st).
Proof.
  induction pairs as [|[t g] pairs IH]; intros st; [done|].
  by rewrite process_without_progress_cons, IH.
Qed.

Lemma run_batches_with_progress_console total task_batches : ∀ idx st st',
  run_batches (batch_with_progress query total) idx task_batches st
  = (None, st') →
  console (self st')
  = console (self st)
    ++ ((λ i, BatchHeader (i + 1) total) <$> seq idx (length task_batches)).
Proof.
  induction task_batches as [|batch rest IH]; intros idx st st' Hrun.
  - simpl in Hrun. simplify_eq. simpl. by rewrite app_nil_r.
  - simpl in Hrun.
    destruct (batch_with_progress query total idx batch st) as [[stop|] st1]
      eqn:Hbody; [by simplify_eq|].
    rewrite (IH _ _ _ Hrun). simpl. rewrite cons_middle, app_assoc. f_equal.
    unfold batch_with_progress in Hbody.
    destruct (queue_batch batch (progress st)) as [progress_tasks rows].
    destruct (semaphore_gate _ batch); simplify_eq.
    by rewrite process_with_progress_console.
Qed.

Lemma run_batches_without_progress_console task_batches : ∀ idx st st',
  run_batches (λ _, batch_without_progress query) idx task_batches st
  = (None, st') →
  console (self st') = console (self st).
Proof.
  induction task_batches as [|batch rest IH]; intros idx st st' Hrun.
  - simpl in Hrun. by simplify_eq.
  - simpl in Hrun.
    destruct (batch_without_progress query batch st) as [[stop|] st1]
      eqn:Hbody; [by simplify_eq|].
    rewrite (IH _ _ _ Hrun).
    unfold batch_without_progress in Hbody.
    destruct (semaphore_gate _ batch); simplify_eq.
    by rewrite process_without_progress_console.
Qed.

End ConsoleLines.

(** X14. What a call of [execute_batch] that returns has printed on the
    console: the warning of the resolver, if any, and then, with the
    progress display only, one header [Executing Batch i/n] per batch, for
    i = 1, ..., n in this order, n being the number of batches. *)
Theorem console_lines
    (query : string → ClaudeCodeOptions → query_run)
    (fuel : nat) (self0 : ParallelTaskExecutor) (tasks : list ParallelTask)
    (show_progress : bool) (bs : list (list ParallelTask))
    (out : list console_line)
    (results : gmap string TaskResult) (st : driver_state) :
  _resolve_dependencies fuel tasks = Some (bs, out) →
  execute_batch query fuel self0 tasks show_progress = (Returned results, st) →
  console (self st)
  = console self0 ++ out
    ++ (if show_progress
        then (λ i, BatchHeader (i + 1) (length bs)) <$> seq 0 (length bs)
        else []).
Proof.
  intros Hres. unfold execute_batch. rewrite Hres.
  set (self1 := {| max_parallel := max_parallel self0;
                   console := console self0 ++ out;
                   completed_tasks := completed_tasks self0 |}).
  destruct show_progress.
  - unfold _execute_with_progress.
    destruct (run_batches _ 0 bs (driver_init self1 [])) as [[stop|] st1]
      eqn:Hrun; [done|].
    intros [= _ <-]. simpl.
    rewrite (run_batches_with_progress_console query _ _ _ _ _ Hrun).
    simpl. by rewrite app_assoc.
  - unfold _execute_without_progress.
    destruct (run_batches _ 0 bs (driver_init self1 [])) as [[stop|] st1]
      eqn:Hrun; [done|].
    intros [= _ <-]. simpl.
    rewrite (run_batches_without_progress_console query _ _ _ _ Hrun).
    simpl. by rewrite app_nil_r.
Qed.

Lemma console_lines_witness :
  console (self (execute_batch echo_query 3 (__init__ 4)
                   [chain_c; chain_a; chain_b] true).2)
  = [BatchHeader 1 3; BatchHeader 2 3; BatchHeader 3 3].
Proof.
  rewrite (console_lines echo_query 3 (__init__ 4)
             [chain_c; chain_a; chain_b] true
             [[chain_a]; [chain_b]; [chain_c]] []
             (assign_results echo_query [chain_a; chain_b; chain_c] ∅)
             (execute_batch echo_query 3 (__init__ 4)
                [chain_c; chain_a; chain_b] true).2).
  - reflexivity.
  - by vm_compute.
  - vm_compute. reflexivity.
Defined.

(** * Further properties of the permit pool *)

Lemma filter_insert_count {A} (P : A → Prop) `{!∀ x, Decision (P x)}
    (l : list A) i p q :
  l !! i = Some p →
  (length (filter P (<[i := q]> l)) + (if decide (P p) then 1 else 0)
   = length (filter P l) + (if decide (P q) then 1 else 0))%nat.
Proof.
  revert i. induction l as [|x l IH]; intros [|i] Hi; simplify_eq/=.
  - rewrite !filter_cons.
    destruct (decide (P p)), (decide (P q)); simpl; lia.
  - rewrite !filter_cons. specialize (IH i Hi).
    destruct (decide (P x)); simpl; lia.
Qed.

Lemma batch_step_steps_left s s' :
  batch_step s s' → steps_left s = S (steps_left s').
Proof.
  intros [i s0 Hi Hfree|i s0 Hi]; unfold steps_left, waiting, in_flight; simpl.
  - pose proof (filter_insert_count (λ p, p = Waiting) (phases s0) i
                  Waiting InFlight Hi) as Hw.
    pose proof (filter_insert_count (λ p, p = InFlight) (phases s0) i
                  Waiting InFlight Hi) as Hf.
    rewrite decide_True, decide_False in Hw by done.
    rewrite decide_False, decide_True in Hf by done. lia.
  - pose proof (filter_insert_count (λ p, p = Waiting) (phases s0) i
                  InFlight Finished Hi) as Hw.
    pose proof (filter_insert_count (λ p, p = InFlight) (phases s0) i
                  InFlight Finished Hi) as Hf.
    rewrite decide_False, decide_False in Hw by done.
    rewrite decide_True, decide_False in Hf by done. lia.
Qed.

Lemma semaphore_new_steps_left value batch s0 :
  semaphore_new value batch = Some s0 →
  steps_left s0 = (2 * length batch)%nat.
Proof.
  unfold semaphore_new. destruct (decide (value < 0)); [done|].
  intros [= <-]. unfold steps_left, waiting, in_flight. simpl.
  assert (length (filter (λ p, p = Waiting)
                    ((λ _ : ParallelTask, Waiting) <$> batch))
          = length batch) as ->.
  { induction batch as [|t batch IH]; [done|].
    rewrite fmap_cons, filter_cons, decide_True by done. simpl. by rewrite IH. }
  assert (filter (λ p, p = InFlight)
            ((λ _ : ParallelTask, Waiting) <$> batch) = []) as ->.
  { induction batch as [|t batch IH]; [done|].
    by rewrite fmap_cons, filter_cons, decide_False. }
  simpl. lia.
Qed.

Lemma filter_length_pos {A} (P : A → Prop) `{!∀ x, Decision (P x)}
    (l : list A) :
  (0 < length (filter P l))%nat → ∃ i x, l !! i = Some x ∧ P x.
Proof.
  intros Hpos. destruct (filter P l) as [|x k] eqn:Hf; [simpl in Hpos; lia|].
  assert (x ∈ filter P l) as Hx by (rewrite Hf; apply list_elem_of_here).
  apply list_elem_of_filter in Hx as [HP Hin].
  apply list_elem_of_lookup in Hin as [i Hi]. eauto.
Qed.

Lemma phases_all_finished s :
  waiting s = 0%nat → in_flight s = 0%nat →
  Forall (λ p, p = Finished) (phases s).
Proof.
  unfold waiting, in_flight. intros Hw Hf. apply Forall_forall. intros p Hp.
  destruct p; [| |done].
  - assert (Waiting ∈ filter (λ p, p = Waiting) (phases s)) as Hin
      by (by apply list_elem_of_filter).
    destruct (filter (λ p, p = Waiting) (phases s)); [|done].
    by apply elem_of_nil in Hin.
  - assert (InFlight ∈ filter (λ p, p = InFlight) (phases s)) as Hin
      by (by apply list_elem_of_filter).
    destruct (filter (λ p, p = InFlight) (phases s)); [|done].
    by apply elem_of_nil in Hin.
Qed.

(** X15. The semaphore of a batch never leaks a permit: in every state the
    batch can reach, the free permits and the calls in flight add up to
    the value the semaphore was created with, the free permits stay
    between 0 and that value, and once every coroutine has finished all
    the permits are back. *)
Theorem permits_never_leak (value : Z) (batch : list ParallelTask)
    (s0 s : batch_state) :
  semaphore_new value batch = Some s0 →
  rtc batch_step s0 s →
  (Z.of_nat (in_flight s) + permits s = value)%Z
  ∧ (0 ≤ permits s ≤ value)%Z
  ∧ length (phases s) = length batch
  ∧ (Forall (λ p, p = Finished) (phases s) → permits s = value).
Proof.
  intros Hnew Hsteps.
  pose proof (batch_steps_inv _ _ _ Hsteps (semaphore_new_inv _ _ _ Hnew))
    as [Hsum Hpos].
  split_and!; [done|lia|lia| |].
  - rewrite (batch_steps_length _ _ Hsteps).
    unfold semaphore_new in Hnew. destruct (decide (value < 0)); [done|].
    injection Hnew as <-. simpl. by rewrite length_fmap.
  - intros Hall.
    assert (in_flight s = 0%nat) as Hzero.
    { unfold in_flight. clear -Hall.
      induction Hall as [|p l -> _ IH]; [done|].
      by rewrite filter_cons, decide_False. }
    lia.
Qed.

Lemma permits_never_leak_witness :
  permits {| permits := 1; phases := [Finished; InFlight; Waiting] |} = 1
  ∧ (Z.of_nat (in_flight
                 {| permits := 1; phases := [Finished; InFlight; Waiting] |})
     + 1 = 2)%Z.
Proof.
  assert (rtc batch_step
            {| permits := 2; phases := [Waiting; Waiting; Waiting] |}
            {| permits := 1; phases := [Finished; InFlight; Waiting] |})
    as Hsteps.
  { eapply rtc_l.
    { apply (step_acquire 0 {| permits := 2;
                              phases := [Waiting; Waiting; Waiting] |});
        [reflexivity|simpl; lia]. }
    eapply rtc_l.
    { apply (step_acquire 1 {| permits := 1;
                              phases := [InFlight; Waiting; Waiting] |});
        [reflexivity|simpl; lia]. }
    eapply rtc_l; [|apply rtc_refl].
    apply (step_release 0 {| permits := 0;
                            phases := [InFlight; InFlight; Waiting] |}).
    reflexivity. }
  destruct (permits_never_leak 2 [chain_a; chain_b; chain_c]
              {| permits := 2; phases := [Waiting; Waiting; Waiting] |}
              {| permits := 1; phases := [Finished; InFlight; Waiting] |})
    as (Hsum & _); [reflexivity|exact Hsteps|].
  split; [reflexivity|exact Hsum].
Defined.

(** X16. With at least one permit a batch never deadlocks and always ends:
    after [n] steps of its coroutines, in whatever order, exactly
    [2 * len(batch) - n] steps are left (an acquisition and a release per
    task), and as long as some coroutine has not finished one of them can
    take a step. *)
Theorem batch_always_finishes (value : Z) (batch : list ParallelTask)
    (s0 s : batch_state) (n : nat) :
  0 < value →
  semaphore_new value batch = Some s0 →
  nsteps batch_step n s0 s →
  (n + steps_left s = 2 * length batch)%nat
  ∧ (Forall (λ p, p = Finished) (phases s) ∨ ∃ s', batch_step s s').
Proof.
  intros Hpos Hnew Hsteps. split.
  - rewrite <- (semaphore_new_steps_left _ _ _ Hnew).
    clear Hnew. induction Hsteps as [|n x y z Hstep _ IH]; [done|].
    rewrite (batch_step_steps_left _ _ Hstep). lia.
  - pose proof (batch_steps_inv _ _ _ (rtc_nsteps_2 _ _ _ Hsteps)
                  (semaphore_new_inv _ _ _ Hnew)) as [Hsum Hfree].
    destruct (decide (0 < in_flight s)%nat) as [Hfl|Hnfl].
    + right. destruct (filter_length_pos _ _ Hfl) as (i & p & Hi & ->).
      eexists. by apply (step_release i).
    + destruct (decide (0 < waiting s)%nat) as [Hw|Hnw].
      * right. destruct (filter_length_pos _ _ Hw) as (i & p & Hi & ->).
        eexists. apply (step_acquire i); [done|lia].
      * left. apply phases_all_finished; lia.
Qed.

Lemma batch_always_finishes_witness :
  (1 + steps_left {| permits := 1; phases := [InFlight; Waiting] |}
   = 2 * 2)%nat.
Proof.
  apply (batch_always_finishes 2 [cycle_a; cycle_b]
           {| permits := 2; phases := [Waiting; Waiting] |}
           {| permits := 1; phases := [InFlight; Waiting] |} 1).
  - lia.
  - reflexivity.
  - eapply nsteps_l; [|apply nsteps_O].
    apply (step_acquire 0 {| permits := 2; phases := [Waiting; Waiting] |});
      [reflexivity|simpl; lia].
Defined.

(** ** The resolver on the lists of the task factories *)

Lemma resolver_step_state_of tasks bs out :
  ready_tasks_of tasks (placed_ids bs) ≠ [] →
  resolver_step tasks (state_of bs out)
  = state_of (bs ++ [sort_by_priority (ready_tasks_of tasks (placed_ids bs))])
             out.
Proof.
  intros Hready. unfold resolver_step. cbn [completed batches printed state_of].
  rewrite choose_ready_unforced by done. unfold state_of. f_equal.
  - unfold placed_ids.
    rewrite concat_app, fmap_app, list_to_set_app_L. simpl.
    by rewrite app_nil_r.
  - by rewrite app_nil_r.
Qed.

(** A list of batches that layers the tasks is what the loop emits. *)
Lemma resolver_loop_layers tasks out :
  NoDup (id <$> tasks) →
  ∀ rest bs,
    layered tasks (bs ++ rest) → concat (bs ++ rest) ≡ₚ tasks →
    resolver_loop (length rest) tasks (state_of bs out)
    = Some (state_of (bs ++ rest) out).
Proof.
  intros Hnd rest. induction rest as [|b rest IH]; intros bs Hlay Hperm.
  - rewrite app_nil_r in *. apply resolver_loop_exit.
    cbn [completed state_of]. unfold placed_ids.
    rewrite size_list_to_set by (by rewrite Hperm).
    rewrite length_fmap, Hperm. lia.
  - destruct (Hlay (length bs) b) as [Hb Hne].
    { by rewrite list_lookup_middle. }
    rewrite take_app_length in Hb.
    assert (ready_tasks_of tasks (placed_ids bs) ≠ []) as Hready.
    { intros Hnil. rewrite Hnil in Hb. by subst b. }
    cbn [length]. rewrite resolver_loop_continue.
    + rewrite resolver_step_state_of by done. rewrite <- Hb.
      rewrite (cons_middle b bs rest), (assoc_L (++)).
      apply IH; by rewrite <- (assoc_L (++)), <- cons_middle.
    + cbn [completed state_of]. unfold placed_ids.
      assert (NoDup (id <$> concat (bs ++ b :: rest))) as Hnd'
        by (by rewrite Hperm).
      rewrite concat_app, fmap_app in Hnd'.
      apply NoDup_app in Hnd' as (Hnd' & _ & _).
      rewrite size_list_to_set, length_fmap by done.
      rewrite <- Hperm, concat_app, length_app. simpl. rewrite length_app.
      destruct b; [done|simpl; lia].
Qed.

Lemma resolve_of_layering tasks bs :
  NoDup (id <$> tasks) → layered tasks bs → concat bs ≡ₚ tasks →
  _resolve_dependencies (length bs) tasks = Some (bs, []).
Proof.
  intros Hnd Hlay Hperm. unfold _resolve_dependencies.
  change resolver_init with (state_of [] []).
  by rewrite (resolver_loop_layers tasks [] Hnd bs []).
Qed.

Ltac ready_side :=
  unfold deps_completed, placed_ids; simpl;
  repeat match goal with H : dependencies _ = _ |- _ => rewrite H end;
  rewrite ?Forall_cons, ?Forall_nil; set_solver.

Ltac ready_filter :=
  unfold ready_tasks_of;
  repeat (rewrite filter_cons;
          first [rewrite decide_True by ready_side
                |rewrite decide_False by ready_side]);
  rewrite filter_nil.

(** A task, one that depends on it, and two that depend on the second. *)
Lemma resolve_fan a b c d :
  NoDup [id a; id b; id c; id d] →
  dependencies a = [] → dependencies b = [id a] →
  dependencies c = [id b] → dependencies d = [id b] →
  (priority d ≤ priority c)%Z →
  _resolve_dependencies 3 [a; b; c; d] = Some ([[a]; [b]; [c; d]], []).
Proof.
  intros Hnd Ha Hb Hc Hd Hprio.
  assert (id a ≠ id b ∧ id a ≠ id c ∧ id a ≠ id d
          ∧ id b ≠ id c ∧ id b ≠ id d ∧ id c ≠ id d) as (?&?&?&?&?&?).
  { apply NoDup_cons in Hnd as [H1 Hnd]. apply NoDup_cons in Hnd as [H2 Hnd].
    apply NoDup_cons in Hnd as [H3 _]. set_solver. }
  apply (resolve_of_layering [a; b; c; d] [[a]; [b]; [c; d]]); [done| |done].
  intros i batch Hi. destruct i as [|[|[|i]]]; simpl in Hi; simplify_eq.
  - split; [|done]. ready_filter. done.
  - split; [|done]. ready_filter. done.
  - split; [|done]. ready_filter.
    unfold sort_by_priority. simpl. by rewrite decide_True.
Qed.

Lemma exploration_prefix base_path k :
  let tasks := take k (create_codebase_exploration_tasks base_path 4) in
  NoDup (id <$> tasks)
  ∧ _resolve_dependencies 1 tasks
    = Some (match tasks with [] => [] | _ => [tasks] end, []).
Proof.
  assert (∀ tasks : list ParallelTask,
            bool_decide (NoDup (id <$> tasks)) = true →
            _resolve_dependencies 1 tasks
            = Some (match tasks with [] => [] | _ => [tasks] end, []) →
            NoDup (id <$> tasks)
            ∧ _resolve_dependencies 1 tasks
              = Some (match tasks with [] => [] | _ => [tasks] end, []))
    as Hcase.
  { intros tasks Hnd Hres. split; [|done]. by apply bool_decide_eq_true in Hnd. }
  destruct k as [|[|[|[|k]]]]; cbn zeta.
  5: rewrite take_ge by (simpl; lia).
  all: apply Hcase; vm_compute; reflexivity.
Qed.

(** X17. Whatever the path and the number asked for,
    [create_codebase_exploration_tasks] returns the first tasks of its
    four, in the order of creation: [num_tasks] of them (all four beyond
    4, none for 0), and for a negative number all but the last
    [-num_tasks].  Their ids are pairwise distinct, and the resolver leaves
    them as they are: one batch, in the order of creation (which is already
    by descending priority), and no warning; no batch at all when the list
    is empty. *)
Theorem exploration_tasks_single_batch (base_path : string) (num_tasks : Z) :
  let tasks := create_codebase_exploration_tasks base_path num_tasks in
  tasks = take (length tasks) (create_codebase_exploration_tasks base_path 4)
  ∧ Z.of_nat (length tasks)
    = (if decide (0 ≤ num_tasks)%Z then Z.min num_tasks 4
       else Z.max (4 + num_tasks) 0)
  ∧ NoDup (id <$> tasks)
  ∧ _resolve_dependencies 1 tasks
    = Some (match tasks with [] => [] | _ => [tasks] end, []).
Proof.
  intros tasks.
  assert (∃ k, tasks = take k (create_codebase_exploration_tasks base_path 4)
               ∧ Z.of_nat (k `min` 4)
                 = (if decide (0 ≤ num_tasks)%Z then Z.min num_tasks 4
                    else Z.max (4 + num_tasks) 0)) as (k & Htasks & Hk).
  { unfold tasks, create_codebase_exploration_tasks at 1, slice_to.
    destruct (decide (0 ≤ num_tasks)%Z).
    - exists (Z.to_nat num_tasks). split; [done|lia].
    - exists (Z.to_nat (4 + num_tasks)). split; [done|lia]. }
  assert (length tasks = (k `min` 4)%nat) as Hlen.
  { rewrite Htasks, length_take. done. }
  split; [|split].
  - rewrite Hlen, Htasks.
    destruct (Nat.min_spec k 4) as [[? ->]|[? ->]]; [done|].
    by rewrite !take_ge by (vm_compute; lia).
  - by rewrite Hlen.
  - rewrite Htasks. apply exploration_prefix.
Qed.

(** X18. Whatever the identifier drawn and the description of the feature,
    the four tasks of [create_feature_development_tasks] have pairwise
    distinct ids and the resolver puts them in exactly three batches without
    a warning: the design alone, then the implementation alone, then the
    tests and the documentation together, the tests first. *)
Theorem feature_tasks_three_batches (base_id feature_description : string) :
  let tasks := create_feature_development_tasks base_id feature_description in
  length tasks = 4%nat
  ∧ NoDup (id <$> tasks)
  ∧ _resolve_dependencies 3 tasks
    = Some ([take 1 tasks; take 1 (drop 1 tasks); drop 2 tasks], []).
Proof.
  intros tasks.
  assert (NoDup (id <$> tasks)) as Hnd.
  { unfold tasks, create_feature_development_tasks. simpl.
    repeat (apply NoDup_cons; split);
      [| | | |apply NoDup_nil_2];
      rewrite ?elem_of_cons, ?elem_of_nil;
      intros Heq; repeat destruct Heq as [Heq|Heq]; try done;
      by apply (inj (String.app base_id)) in Heq. }
  split; [done|]. split; [done|].
  unfold tasks, create_feature_development_tasks in *.
  simpl take. simpl drop. by apply resolve_fan.
Qed.

(** ** [display_results_summary] *)







(** One code point of two bytes, U+00E9, counts once. *)
Example str_len_two_bytes :
  str_len (String "195" (String "169" EmptyString)) = 1%nat.
Proof. reflexivity. Qed.



Section DisplaySummary.

Variable query : string → ClaudeCodeOptions → query_run.




End DisplaySummary.





(** ** The rows of the progress display *)

Lemma NoDup_ids_of_batch (bs : list (list ParallelTask)) b :
  NoDup (id <$> concat bs) → b ∈ bs → NoDup (id <$> b).
Proof.
  intros Hnd (l1 & l2 & ->)%list_elem_of_split.
  rewrite concat_app, concat_cons, !fmap_app in Hnd.
  apply NoDup_app in Hnd as (_ & _ & Hnd).
  by apply NoDup_app in Hnd as (Hnd & _ & _).
Qed.

Lemma queue_batch_snoc batch t rows :
  queue_batch (batch ++ [t]) rows
  = (<[id t := length (queue_batch batch rows).2]> (queue_batch batch rows).1,
     (queue_batch batch rows).2
     ++ [{| row_description := Queued (description t);
            row_completed := false |}]).
Proof. unfold queue_batch. by rewrite fold_left_app. Qed.

Lemma queue_batch_rows batch rows :
  (queue_batch batch rows).2
  = rows ++ ((λ t, {| row_description := Queued (description t);
                      row_completed := false |}) <$> batch).
Proof.
  induction batch as [|t batch IH] using rev_ind.
  - simpl. by rewrite app_nil_r.
  - rewrite queue_batch_snoc. cbn [snd]. rewrite IH, fmap_app.
    by rewrite <- (assoc_L (++)).
Qed.

Lemma queue_batch_ids batch rows :
  NoDup (id <$> batch) →
  ∀ i t, batch !! i = Some t →
         (queue_batch batch rows).1 !! id t = Some (length rows + i)%nat.
Proof.
  induction batch as [|t' batch IH] using rev_ind; intros Hnd i t Hi.
  - by rewrite lookup_nil in Hi.
  - rewrite fmap_app in Hnd. apply NoDup_app in Hnd as (Hnd & Hfresh & _).
    rewrite queue_batch_snoc. cbn [fst].
    apply lookup_app_Some in Hi as [Hi|[Hge Hi]].
    + rewrite lookup_insert_ne; [by apply IH|].
      intros Heq. apply (Hfresh (id t)).
      * apply list_elem_of_fmap. exists t. split; [done|].
        by eapply list_elem_of_lookup_2.
      * rewrite <- Heq. simpl. apply list_elem_of_here.
    + destruct (i - length batch)%nat as [|k] eqn:Hk; simpl in Hi;
        [|by rewrite lookup_nil in Hi].
      simplify_eq. rewrite lookup_insert_eq, queue_batch_rows.
      rewrite length_app, length_fmap. f_equal. lia.
Qed.

Section ProgressRows.

Variable query : string → ClaudeCodeOptions → query_run.

Lemma run_with_semaphore_updates t :
  (run_with_semaphore query t).2
  = [Executing (description t); outcome_text query t].
Proof.
  unfold run_with_semaphore, execute_single_task, outcome_text.
  by destruct (ending (query (prompt t) (options_of t))).
Qed.

Lemma apply_updates_cons progress_tasks t batch rows :
  apply_updates query progress_tasks (t :: batch) rows
  = apply_updates query progress_tasks batch
      (match progress_tasks !! id t with
       | Some pid =>
           fold_left (λ rows d, update_description d pid rows)
                     (run_with_semaphore query t).2 rows
       | None => rows
       end).
Proof. done. Qed.

Lemma apply_updates_spec progress_tasks batch : ∀ rows rs,
  (∀ i t, batch !! i = Some t →
          progress_tasks !! id t = Some (length rows + i)%nat) →
  length rs = length batch →
  apply_updates query progress_tasks batch (rows ++ rs)
  = rows ++ zip_with (λ t r, {| row_description := outcome_text query t;
                                row_completed := row_completed r |})
                     batch rs.
Proof.
  induction batch as [|t batch IH]; intros rows rs Hids Hlen.
  - by destruct rs.
  - destruct rs as [|r rs]; [done|]. simpl in Hlen.
    rewrite apply_updates_cons, (Hids 0%nat t eq_refl).
    rewrite run_with_semaphore_updates. cbn [fold_left].
    unfold update_description.
    rewrite !alter_app_r. cbn [alter list_alter].
    rewrite (cons_middle _ rows rs), (assoc_L (++)).
    rewrite IH.
    + cbn [zip_with row_completed]. by rewrite <- (assoc_L (++)).
    + intros i t' Hi. rewrite (Hids (S i) t' Hi), length_app. simpl.
      f_equal. lia.
    + lia.
Qed.

Lemma process_with_progress_rows progress_tasks pairs : ∀ rows rs st,
  (∀ i p, pairs !! i = Some p →
          progress_tasks !! id p.1 = Some (length rows + i)%nat) →
  length rs = length pairs →
  progress st = rows ++ rs →
  progress (process_with_progress progress_tasks pairs st)
  = rows ++ ((λ r, {| row_description := row_description r;
                      row_completed := true |}) <$> rs).
Proof.
  induction pairs as [|[t g] pairs IH]; intros rows rs st Hids Hlen Hrows.
  - destruct rs; [|done]. simpl. by rewrite Hrows.
  - destruct rs as [|r rs]; [done|]. simpl in Hlen.
    rewrite process_with_progress_cons.
    pose proof (Hids 0%nat (t, g) eq_refl) as Hpid. simpl in Hpid.
    rewrite Hpid, Hrows. unfold update_completed.
    rewrite alter_app_r. cbn [alter list_alter].
    rewrite (IH (rows ++ [{| row_description := row_description r;
                             row_completed := true |}]) rs).
    + rewrite fmap_cons. by rewrite <- (assoc_L (++)).
    + intros i p Hi. rewrite (Hids (S i) p Hi), length_app. simpl.
      f_equal. lia.
    + lia.
    + cbn [progress]. by rewrite <- (assoc_L (++)).
Qed.

Lemma final_rows_of_batch batch :
  (λ r, {| row_description := row_description r; row_completed := true |})
  <$> zip_with (λ t r, {| row_description := outcome_text query t;
                          row_completed := row_completed r |})
        batch
        ((λ t, {| row_description := Queued (description t);
                  row_completed := false |}) <$> batch)
  = final_row query <$> batch.
Proof.
  induction batch as [|t batch IH]; [done|].
  rewrite !fmap_cons. cbn [zip_with]. rewrite fmap_cons, IH. done.
Qed.

Lemma batch_with_progress_rows total idx batch st :
  NoDup (id <$> batch) →
  (batch_with_progress query total idx batch st).1 = None →
  progress (batch_with_progress query total idx batch st).2
  = progress st ++ (final_row query <$> batch).
Proof.
  intros Hnd. unfold batch_with_progress.
  pose proof (queue_batch_rows batch (progress st)) as Hrows.
  pose proof (queue_batch_ids batch (progress st) Hnd) as Hids.
  destruct (queue_batch batch (progress st)) as [progress_tasks rows].
  cbn [fst snd] in Hrows, Hids. subst rows.
  destruct (semaphore_gate _ batch) as [stop|]; [done|].
  intros _. cbn [snd].
  rewrite (process_with_progress_rows progress_tasks _ (progress st)
             (zip_with (λ t r, {| row_description := outcome_text query t;
                                  row_completed := row_completed r |})
                batch
                ((λ t, {| row_description := Queued (description t);
                          row_completed := false |}) <$> batch))).
  - by rewrite final_rows_of_batch.
  - intros i [t g] Hi. apply lookup_zip_with_Some in Hi
      as (t' & g' & Heq & Ht & _). simplify_eq. simpl. by apply Hids.
  - rewrite length_zip_with, length_zip, !length_fmap. lia.
  - cbn [progress]. apply apply_updates_spec; [done|].
    by rewrite length_fmap.
Qed.

Lemma run_batches_with_progress_rows total : ∀ task_batches idx st,
  Forall (λ b, NoDup (id <$> b)) task_batches →
  (run_batches (batch_with_progress query total) idx task_batches st).1 = None →
  progress (run_batches (batch_with_progress query total) idx task_batches st).2
  = progress st ++ (final_row query <$> concat task_batches).
Proof.
  induction task_batches as [|batch rest IH]; intros idx st Hnd Hrun.
  - simpl. by rewrite app_nil_r.
  - apply Forall_cons in Hnd as [Hb Hrest]. simpl in *.
    pose proof (batch_with_progress_rows total idx batch st Hb) as Hrows.
    destruct (batch_with_progress query total idx batch st) as [[stop|] st1];
      [done|].
    rewrite IH by done. cbn [fst snd] in Hrows.
    rewrite Hrows by done. by rewrite fmap_app, (assoc_L (++)).
Qed.

Lemma process_without_progress_rows pairs : ∀ st,
  progress (process_without_progress pairs st) = progress st.
Proof.
  induction pairs as [|[t g] pairs IH]; intros st; [done|].
  by rewrite process_without_progress_cons, IH.
Qed.

Lemma run_batches_without_progress_rows : ∀ task_batches idx st,
  progress (run_batches (λ _, batch_without_progress query) idx task_batches st).2
  = progress st.
Proof.
  induction task_batches as [|batch rest IH]; intros idx st; [done|].
  simpl.
  assert (progress (batch_without_progress query batch st).2 = progress st)
    as Hrows.
  { unfold batch_without_progress.
    destruct (semaphore_gate _ batch); [done|].
    cbn [snd]. by rewrite process_without_progress_rows. }
  destruct (batch_without_progress query batch st) as [[stop|] st1];
    [done|].
  by rewrite IH.
Qed.

End ProgressRows.

(** X21. When a call of [execute_batch] with the progress display returns,
    the display holds exactly one row per submitted task, in the order of
    the batches, every row is marked completed, and its description is the
    outcome of that task's own run: completed, timed out, or failed.
    Without the display no row is ever created. *)
Theorem progress_rows_complete
    (query : string → ClaudeCodeOptions → query_run)
    (fuel : nat) (self0 : ParallelTaskExecutor) (tasks : list ParallelTask)
    (show_progress : bool) (bs : list (list ParallelTask))
    (out : list console_line)
    (results : gmap string TaskResult) (st : driver_state) :
  _resolve_dependencies fuel tasks = Some (bs, out) →
  execute_batch query fuel self0 tasks show_progress = (Returned results, st) →
  progress st
  = (if show_progress then final_row query <$> concat bs else [])
  ∧ (show_progress = true →
     length (progress st) = length tasks
     ∧ Forall (λ row, row_completed row = true) (progress st)
     ∧ ∀ t, t ∈ tasks → final_row query t ∈ progress st).
Proof.
  intros Hres Hrun.
  pose proof (resolve_returns_partition _ _ _ _ Hres) as Hperm.
  pose proof (resolve_returns_unique_ids _ _ _ _ Hres) as Hnd.
  assert (progress st
          = if show_progress then final_row query <$> concat bs else [])
    as Hrows.
  { unfold execute_batch in Hrun. rewrite Hres in Hrun.
    destruct show_progress.
    - unfold _execute_with_progress in Hrun.
      pose proof (run_batches_with_progress_rows query (length bs) bs 0
                    (driver_init
                       {| max_parallel := max_parallel self0;
                          console := console self0 ++ out;
                          completed_tasks := completed_tasks self0 |} []))
        as Hrows.
      destruct (run_batches _ 0 bs _) as [[stop|] st1]; [done|].
      simplify_eq. cbn [fst snd] in Hrows. apply Hrows; [|done].
      apply Forall_forall. intros b Hb.
      apply (NoDup_ids_of_batch bs); [by rewrite Hperm|done].
    - unfold _execute_without_progress in Hrun.
      pose proof (run_batches_without_progress_rows query bs 0
                    (driver_init
                       {| max_parallel := max_parallel self0;
                          console := console self0 ++ out;
                          completed_tasks := completed_tasks self0 |} []))
        as Hrows.
      destruct (run_batches _ 0 bs _) as [[stop|] st1]; [done|].
      by simplify_eq. }
  split; [done|]. intros ->. rewrite Hrows. split; [|split].
  - by rewrite length_fmap, Hperm.
  - apply Forall_fmap, Forall_forall. by intros t _.
  - intros t Ht. apply list_elem_of_fmap. exists t. split; [done|].
    by rewrite Hperm.
Qed.

Lemma progress_rows_complete_witness :
  progress (execute_batch echo_query 1 (__init__ 4) five_tasks true).2
  = final_row echo_query <$> five_tasks.
Proof.
  destruct (progress_rows_complete echo_query 1 (__init__ 4) five_tasks true
              [five_tasks] []
              (assign_results echo_query five_tasks ∅)
              (execute_batch echo_query 1 (__init__ 4) five_tasks true).2)
    as [Hrows _].
  - vm_compute. reflexivity.
  - vm_compute. reflexivity.
  - rewrite Hrows. vm_compute. reflexivity.
Defined.

(** ** Duplicate ids on the execution path *)

(** When the loop ends within the iterations it is given, its trace ends in
    the state it returns. *)
Lemma resolver_trace_returned fuel tasks : ∀ st st',
  resolver_loop fuel tasks st = Some st' → resolver_trace fuel tasks st = st'.
Proof.
  induction fuel as [|fuel IH]; intros st st' Hloop; simpl in *;
    destruct (decide (size (completed st) < length tasks)%nat);
    try done; try by simplify_eq.
  by apply IH.
Qed.

(** On two tasks that share an id every iteration after the first prints
    the warning, for no task. *)
Example resolver_trace_twins :
  printed (resolver_trace 3 [twin_x1; twin_x2] resolver_init)
  = [WarnCircular 0; WarnCircular 0].
Proof. vm_compute. reflexivity. Qed.

Section DuplicateIds.

Variable query : string → ClaudeCodeOptions → query_run.



End DuplicateIds.


